(** * BackPACK: shape conventions, Kronecker-factor algebra and the HBP
      convolution handler

    A shallow embedding of

    - [backpack/core/derivatives/utils.py]     (shape-convention converter
      and the three handler wrappers),
    - [backpack/extensions/secondorder/utils.py] (Kronecker-factor algebra),
    - [backpack/secondorder/hbp/conv2d.py]     (class [HBPConv2d]).

    Tensors are modelled by their logical content: a shape and the entries
    in row-major (contiguous) order.  Strides and storage sharing are not
    modelled, so [view] and [reshape] coincide.  Python exceptions are
    values of [exn]; a function that may raise returns a [result].

    Entries live in an arbitrary type with the operations of the class
    [Scalar]; the algebraic identities of the Kronecker product are proved
    for scalars obeying the commutative semiring laws ([ScalarLaws]), that
    is, in exact arithmetic. *)

From Stdlib Require Import Ascii String.
From Stdlib Require Import List Arith Lia Bool ZArith Ring_theory.
Import ListNotations.

Set Implicit Arguments.

(* ================================================================== *)
(** ** Exceptions and the error monad *)
(* ================================================================== *)

(** The exceptions the modelled code can raise.  A bare [assert cond]
    raises [AssertionError] without a message. *)
Inductive exn : Type :=
| AssertionError (msg : option string)
| ValueError
| IndexError
| TypeError
| KeyError
| RuntimeError
| StopIteration
| NotImplementedError.

Inductive result (A : Type) : Type :=
| Ok (a : A)
| Raise (e : exn).

Arguments Ok {A} a.
Arguments Raise {A} e.

Definition bind {A B : Type} (r : result A) (k : A -> result B) : result B :=
  match r with
  | Ok a => k a
  | Raise e => Raise e
  end.

Declare Scope py_scope.
Delimit Scope py_scope with py.
Notation "x <- c ;; k" := (bind c (fun x => k))
  (at level 61, c at next level, right associativity) : py_scope.
Notation "c ;;; k" := (bind c (fun _ => k))
  (at level 61, right associativity) : py_scope.
Open Scope py_scope.

(** [assert cond] *)
Definition assert_ (cond : bool) : result unit :=
  if cond then Ok tt else Raise (AssertionError None).

(** [xs[i]] for a non-negative index [i] *)
Definition getitem {A : Type} (xs : list A) (i : nat) : result A :=
  match nth_error xs i with
  | Some x => Ok x
  | None => Raise IndexError
  end.

(** [xs[-1]] *)
Definition getitem_last {A : Type} (xs : list A) : result A :=
  match rev xs with
  | x :: _ => Ok x
  | [] => Raise IndexError
  end.

(* ================================================================== *)
(** ** Scalars *)
(* ================================================================== *)

(** The entry type of tensors, with the operations the code applies to
    entries: sums and products inside [einsum], and the division of an
    entry by the (integer) batch size. *)
Class Scalar (R : Type) : Type := {
  rzero : R;
  rone : R;
  radd : R -> R -> R;
  rmul : R -> R -> R;
  rdiv_int : R -> nat -> R
}.

(** Exact arithmetic: the scalars form a commutative semiring. *)
Class ScalarLaws (R : Type) `{Scalar R} : Prop := {
  scalar_srt : semi_ring_theory rzero rone radd rmul (@eq R)
}.

#[export] Instance Scalar_Z : Scalar Z := {
  rzero := 0%Z;
  rone := 1%Z;
  radd := Z.add;
  rmul := Z.mul;
  rdiv_int := fun x n => Z.div x (Z.of_nat n)
}.

(* ================================================================== *)
(** ** Shapes, multi-indices and row-major order *)
(* ================================================================== *)

(** [torch.prod] of a shape (the product of the empty shape is 1). *)
Definition torch_prod (dims : list nat) : nat := fold_right Nat.mul 1 dims.

Definition shape_eqb (s1 s2 : list nat) : bool :=
  if list_eq_dec Nat.eq_dec s1 s2 then true else false.

(** Offset of the entry with multi-index [idx] in a contiguous tensor of
    shape [dims]: the stride of an axis is the product of the extents of
    the axes after it. *)
Fixpoint ravel (dims idx : list nat) : nat :=
  match dims, idx with
  | _ :: ds, i :: idx' => i * torch_prod ds + ravel ds idx'
  | _, _ => 0
  end.

(** All multi-indices of a tensor of shape [dims], in row-major order. *)
Fixpoint tuples (dims : list nat) : list (list nat) :=
  match dims with
  | [] => [[]]
  | d :: ds => flat_map (fun i => map (cons i) (tuples ds)) (seq 0 d)
  end.

(* ================================================================== *)
(** ** Tensors *)
(* ================================================================== *)

Section Tensors.

Context {R : Type} `{Scalar R}.

Record tensor : Type := {
  shape : list nat;
  data : list R
}.

(** A tensor holds as many entries as its shape says. *)
Definition wf (t : tensor) : Prop :=
  length (data t) = torch_prod (shape t).

Definition numel (t : tensor) : nat := torch_prod (shape t).

(** [t[idx]] *)
Definition entry (t : tensor) (idx : list nat) : R :=
  nth (ravel (shape t) idx) (data t) rzero.

(** [t.reshape(new_shape)]: fails unless the entry count is kept. *)
Definition reshape (t : tensor) (new_shape : list nat) : result tensor :=
  if torch_prod new_shape =? numel t
  then Ok {| shape := new_shape; data := data t |}
  else Raise RuntimeError.

(** [t.view(new_shape)] on a contiguous tensor. *)
Definition view (t : tensor) (new_shape : list nat) : result tensor :=
  reshape t new_shape.

(** [t.view(-1)] *)
Definition view_flat (t : tensor) : tensor :=
  {| shape := [numel t]; data := data t |}.

(** [t.contiguous()]: the model keeps every tensor contiguous. *)
Definition contiguous (t : tensor) : tensor := t.

(** [t.unsqueeze(-1)] *)
Definition unsqueeze_last (t : tensor) : tensor :=
  {| shape := shape t ++ [1]; data := data t |}.

(** [t.squeeze(-1)]: drops the last axis when its extent is 1, and is the
    identity otherwise. *)
Definition squeeze_last (t : tensor) : tensor :=
  match rev (shape t) with
  | 1 :: front => {| shape := rev front; data := data t |}
  | _ => t
  end.

(** [t / n] for an integer [n], entry by entry. *)
Definition div_int (t : tensor) (n : nat) : tensor :=
  {| shape := shape t; data := map (fun x => rdiv_int x n) (data t) |}.

(* ------------------------------------------------------------------ *)
(** *** einsum *)
(* ------------------------------------------------------------------ *)

(** Sum and product of a list of scalars, accumulated from the left
    starting at the first element: a one-element list is its element. *)
Definition rsum (xs : list R) : R :=
  match xs with
  | [] => rzero
  | x :: xs' => fold_left radd xs' x
  end.

Definition rprod (xs : list R) : R :=
  match xs with
  | [] => rone
  | x :: xs' => fold_left rmul xs' x
  end.

(** An einsum equation after its labels have been numbered: the output
    labels get positions [0 .. n_out - 1] in output order, the summed
    labels (those of the operands that are absent from the output, in
    order of first appearance) get [n_out .. n_out + n_sum - 1]; every
    operand is the list of the positions of its axes. *)
Record plan : Type := {
  n_out : nat;
  n_sum : nat;
  ops_pos : list (list nat)
}.

Definition is_letter (c : ascii) : bool :=
  let n := nat_of_ascii c in
  ((97 <=? n) && (n <=? 122)) || ((65 <=? n) && (n <=? 90)).

(** Split at every occurrence of [sep]. *)
Fixpoint split_on (sep : ascii) (s : list ascii) : list (list ascii) :=
  match s with
  | [] => [[]]
  | c :: s' =>
      if Ascii.eqb c sep then [] :: split_on sep s'
      else match split_on sep s' with
           | [] => [[c]]
           | h :: t => (c :: h) :: t
           end
  end.

(** Split at the first arrow [->]. *)
Fixpoint split_arrow (s : list ascii) : option (list ascii * list ascii) :=
  match s with
  | [] => None
  | c :: s' =>
      match s' with
      | c' :: rest =>
          if Ascii.eqb c "-" && Ascii.eqb c' ">" then Some ([], rest)
          else option_map (fun lr => (c :: fst lr, snd lr)) (split_arrow s')
      | [] => None
      end
  end.

Definition mem_ascii (c : ascii) (l : list ascii) : bool :=
  existsb (Ascii.eqb c) l.

Fixpoint distinct (l : list ascii) : bool :=
  match l with
  | [] => true
  | c :: l' => negb (mem_ascii c l') && distinct l'
  end.

(** The elements of [l], each kept at its first occurrence only. *)
Fixpoint dedup (seen l : list ascii) : list ascii :=
  match l with
  | [] => []
  | c :: l' =>
      if mem_ascii c seen then dedup seen l' else c :: dedup (c :: seen) l'
  end.

Fixpoint index_of (c : ascii) (l : list ascii) : nat :=
  match l with
  | [] => 0
  | c' :: l' => if Ascii.eqb c c' then 0 else S (index_of c l')
  end.

(** Parsing an explicit equation [ops->out]: operands separated by commas,
    every label a letter, the output labels distinct and present in some
    operand. *)
Definition einsum_plan (equation : string) : option plan :=
  match split_arrow (list_ascii_of_string equation) with
  | None => None
  | Some (lhs, out) =>
      let ops := split_on "," lhs in
      let ins := concat ops in
      if forallb is_letter ins && forallb is_letter out && distinct out
         && forallb (fun c => mem_ascii c ins) out
      then
        let summed := dedup out ins in
        let labels := out ++ summed in
        Some {| n_out := length out;
                n_sum := length summed;
                ops_pos := map (map (fun c => index_of c labels)) ops |}
      else None
  end.

(** Extent of position [p]: that of the first operand axis carrying it. *)
Fixpoint axis_dim (p : nat) (pos dims : list nat) : option nat :=
  match pos, dims with
  | q :: pos', d :: dims' => if q =? p then Some d else axis_dim p pos' dims'
  | _, _ => None
  end.

Fixpoint pos_dim (p : nat) (ops shapes : list (list nat)) : nat :=
  match ops, shapes with
  | o :: ops', s :: shapes' =>
      match axis_dim p o s with
      | Some d => d
      | None => pos_dim p ops' shapes'
      end
  | _, _ => 0
  end.

(** Every operand has as many axes as labels, and axes sharing a label
    agree on their extent. *)
Definition operands_ok (ops shapes : list (list nat)) : bool :=
  (length ops =? length shapes)
  && forallb (fun os =>
        (length (fst os) =? length (snd os))
        && forallb (fun pd => pos_dim (fst pd) ops shapes =? snd pd)
                   (combine (fst os) (snd os)))
      (combine ops shapes).

(** The entries of the result: for every output index, the sum over all
    values of the summed positions of the product of the operand entries
    selected by the index. *)
Definition einsum_eval (ops : list (list nat)) (odims sdims : list nat)
    (ts : list tensor) : list R :=
  map (fun o =>
         rsum (map (fun s =>
                      rprod (map (fun ot =>
                                    entry (snd ot)
                                      (map (fun p => nth p (o ++ s) 0) (fst ot)))
                                 (combine ops ts)))
                   (tuples sdims)))
      (tuples odims).

(** Modelled from the spec: [einsum] ([backpack.utils.utils.einsum] and
    [backpack.utils.einsum.einsum], thin wrappers around the framework's
    Einstein summation, are not under src/).  The spec describes its uses
    as a transpose of axes, a pairwise block product and the contraction
    of each factor against its axis; this is Einstein summation for
    explicit equations.  Malformed equations and operands that do not fit
    the equation raise [RuntimeError]. *)
Definition einsum (equation : string) (ts : list tensor) : result tensor :=
  match einsum_plan equation with
  | None => Raise RuntimeError
  | Some p =>
      let shapes := map shape ts in
      if operands_ok (ops_pos p) shapes
      then
        let odims := map (fun q => pos_dim q (ops_pos p) shapes)
                         (seq 0 (n_out p)) in
        let sdims := map (fun q => pos_dim q (ops_pos p) shapes)
                         (seq (n_out p) (n_sum p)) in
        Ok {| shape := odims;
              data := einsum_eval (ops_pos p) odims sdims ts |}
      else Raise RuntimeError
  end.



End Tensors.

Arguments tensor R : clear implicits.

(* ================================================================== *)
(** ** Layer records *)
(* ================================================================== *)

Section Model.

Context {R : Type} `{Scalar R}.

(** The recorded forward context of a layer, as far as the code reads it:
    [module.output_shape], [module.input0_shape], [module.input0] and
    [module.weight]. *)
Record torch_module : Type := {
  output_shape : list nat;
  input0_shape : list nat;
  input0 : tensor R;
  weight : tensor R
}.

(* ================================================================== *)
(** ** backpack/core/derivatives/utils.py *)
(* ================================================================== *)

Definition new_output_convention (old_mat : tensor R) (module : torch_module)
  : result (tensor R) :=
  N <- getitem (output_shape module) 0 ;;
  V <- getitem_last (shape old_mat) ;;
  let out_features_shape := tl (output_shape module) in
  let out_features := torch_prod out_features_shape in
  assert_ (shape_eqb (shape old_mat) [N; out_features; V]) ;;;
  new_mat <- einsum "ndv->vnd" [old_mat] ;;
  let new_shape := [V; N] ++ out_features_shape in
  reshape new_mat new_shape.

Definition old_weight_convention (new_mat : tensor R) (module : torch_module)
    (sum_batch : bool) : result (tensor R) :=
  V <- getitem (shape new_mat) 0 ;;
  N <- getitem (shape new_mat) 1 ;;
  let weight_shape := shape (weight module) in
  assert_ (if sum_batch
           then shape_eqb (shape new_mat) ([V] ++ weight_shape)
           else shape_eqb (shape new_mat) ([V; N] ++ weight_shape)) ;;;
  let weight_numel := numel (weight module) in
  let out_shape := if sum_batch then [V; weight_numel]
                   else [V; N; weight_numel] in
  old_mat <- reshape new_mat out_shape ;;
  let equation := (if sum_batch then "vi->iv" else "vni->niv")%string in
  einsum equation [old_mat].

Definition new_input_convention (old_mat : tensor R) (module : torch_module)
  : result (tensor R) :=
  N <- getitem (input0_shape module) 0 ;;
  V <- getitem_last (shape old_mat) ;;
  let in_features_shape := tl (input0_shape module) in
  let in_features := torch_prod in_features_shape in
  assert_ (shape_eqb (shape old_mat) [N; in_features; V]) ;;;
  new_mat <- einsum "ndv->vnd" [old_mat] ;;
  let new_shape := [V; N] ++ in_features_shape in
  reshape new_mat new_shape.

Definition old_input_convention (new_mat : tensor R) (module : torch_module)
  : result (tensor R) :=
  N <- getitem (input0_shape module) 0 ;;
  V <- getitem (shape new_mat) 0 ;;
  let in_features_shape := tl (input0_shape module) in
  let in_features := torch_prod in_features_shape in
  assert_ (shape_eqb (shape new_mat) ([V; N] ++ in_features_shape)) ;;;
  old_mat <- reshape new_mat [V; N; in_features] ;;
  einsum "vnc->ncv" [old_mat].

Definition old_output_convention (new_mat : tensor R) (module : torch_module)
  : result (tensor R) :=
  N <- getitem (output_shape module) 0 ;;
  V <- getitem (shape new_mat) 0 ;;
  let out_features_shape := tl (output_shape module) in
  let out_features := torch_prod out_features_shape in
  assert_ (shape_eqb (shape new_mat) ([V; N] ++ out_features_shape)) ;;;
  old_mat <- reshape new_mat [V; N; out_features] ;;
  einsum "vnc->ncv" [old_mat].

Definition add_V_dim (old_mat : tensor R) : tensor R := unsqueeze_last old_mat.

Definition remove_V_dim (old_mat : tensor R) : tensor R := squeeze_last old_mat.

(** The keyword arguments of a handler call; the wrappers read only
    [sum_batch], which may be absent. *)
Record kwargs : Type := { kw_sum_batch : option bool }.

(** [kwargs["sum_batch"]] *)
Definition kwargs_sum_batch (kw : kwargs) : result bool :=
  match kw_sum_batch kw with
  | Some b => Ok b
  | None => Raise KeyError
  end.

(** [try: ... except KeyError: handler] *)
Definition try_except_KeyError {A : Type} (body : result A) (handler : A)
  : result A :=
  match body with
  | Raise KeyError => Ok handler
  | r => r
  end.

Section Wrappers.

(** The handler object, and the gradients passed through untouched. *)
Variables Self Grad : Type.

(** A Jacobian handler [jmp(self, module, g_inp, g_out, mat, **kwargs)]. *)
Definition handler : Type :=
  Self -> torch_module -> Grad -> Grad -> tensor R -> kwargs
  -> result (tensor R).

Definition jac_t_new_shape_convention (jmp : handler) : handler :=
  fun self module g_inp g_out mat kw =>
    let is_vec := length (shape mat) =? 2 in
    let mat_used := if negb is_vec then mat else add_V_dim mat in
    mat_used <- new_output_convention mat_used module ;;
    result_ <- jmp self module g_inp g_out mat_used kw ;;
    result_ <- old_input_convention result_ module ;;
    let result_ := if negb is_vec then result_ else remove_V_dim result_ in
    Ok result_.

Definition weight_jac_t_new_shape_convention (jmp : handler) : handler :=
  fun self module g_inp g_out mat kw =>
    let is_vec := length (shape mat) =? 2 in
    let mat_used := if negb is_vec then mat else add_V_dim mat in
    mat_used <- new_output_convention mat_used module ;;
    result_ <- jmp self module g_inp g_out mat_used kw ;;
    sum_batch <- try_except_KeyError (kwargs_sum_batch kw) true ;;
    result_ <- old_weight_convention result_ module sum_batch ;;
    let result_ := if negb is_vec then result_ else remove_V_dim result_ in
    Ok result_.

Definition jac_new_shape_convention (jmp : handler) : handler :=
  fun self module g_inp g_out mat kw =>
    let is_vec := length (shape mat) =? 2 in
    let mat_used := if negb is_vec then mat else add_V_dim mat in
    mat_used <- new_input_convention mat_used module ;;
    result_ <- jmp self module g_inp g_out mat_used kw ;;
    result_ <- old_output_convention result_ module ;;
    let result_ := if negb is_vec then result_ else remove_V_dim result_ in
    Ok result_.

End Wrappers.

(* ================================================================== *)
(** ** backpack/extensions/secondorder/utils.py *)
(* ================================================================== *)

Definition is_tensor_of_order (order : nat) (t : tensor R) : bool :=
  length (shape t) =? order.

Definition is_matrix (t : tensor R) : bool :=
  let matrix_order := 2 in
  is_tensor_of_order matrix_order t.

Definition all_tensors_of_order (order : nat) (tensors : list (tensor R)) : bool :=
  forallb (fun b : bool => b) (map (is_tensor_of_order order) tensors).

Definition matrix_from_two_kron_facs (A B : tensor R) : result (tensor R) :=
  assert_ (is_matrix A) ;;;
  assert_ (is_matrix B) ;;;
  A0 <- getitem (shape A) 0 ;;
  B0 <- getitem (shape B) 0 ;;
  A1 <- getitem (shape A) 1 ;;
  B1 <- getitem (shape B) 1 ;;
  let mat_shape := [A0 * B0; A1 * B1] in
  mat <- einsum "ij,kl->ikjl" [A; B] ;;
  view (contiguous mat) mat_shape.

(** The loop of [matrix_from_kron_facs]; [mat] is Python's [None] until
    the first factor has been seen. *)
Fixpoint matrix_from_kron_facs_loop (mat : option (tensor R))
    (factors : list (tensor R)) : result (option (tensor R)) :=
  match factors with
  | [] => Ok mat
  | factor :: rest =>
      match mat with
      | None =>
          assert_ (is_matrix factor) ;;;
          matrix_from_kron_facs_loop (Some factor) rest
      | Some m =>
          m' <- matrix_from_two_kron_facs m factor ;;
          matrix_from_kron_facs_loop (Some m') rest
      end
  end.

Definition matrix_from_kron_facs (factors : list (tensor R))
  : result (option (tensor R)) :=
  matrix_from_kron_facs_loop None factors.

(** The generator [get_letters]: it has yielded [gen_i] letters out of
    [gen_max]. *)
Record letters : Type := { gen_i : nat; gen_max : nat }.

Definition get_letters_from (max_letters : nat) : letters :=
  {| gen_i := 0; gen_max := max_letters |}.

Definition get_letters : letters := get_letters_from 26.

(** [next(letters)]: the next letter and the advanced generator, or
    [StopIteration] once the range is used up. *)
Definition next (g : letters) : result (ascii * letters) :=
  if gen_i g <? gen_max g
  then Ok (ascii_of_nat (nat_of_ascii "a" + gen_i g),
           {| gen_i := S (gen_i g); gen_max := gen_max g |})
  else Raise StopIteration.

(** The body of the [for] loop of [vp_einsum_equation], run [n] times. *)
Fixpoint vp_einsum_equation_loop (n : nat) (g : letters)
    (in_str v_str out_str : string) : result (string * string * string) :=
  match n with
  | 0 => Ok (in_str, v_str, out_str)
  | S n' =>
      rg <- next g ;;
      cg <- next (snd rg) ;;
      let row_idx := String (fst rg) EmptyString in
      let col_idx := String (fst cg) EmptyString in
      vp_einsum_equation_loop n' (snd cg)
        (in_str ++ "," ++ row_idx ++ col_idx)%string
        (v_str ++ col_idx)%string
        (out_str ++ row_idx)%string
  end.

Definition vp_einsum_equation (num_factors : nat) : result string :=
  let letters := get_letters in
  strs <- vp_einsum_equation_loop num_factors letters
            EmptyString EmptyString EmptyString ;;
  let '(in_str, v_str, out_str) := strs in
  Ok (v_str ++ in_str ++ "->" ++ out_str)%string.

(** [zip( *lists )]: the tuples of first, second, ... elements, as long as
    every list has one. *)
Fixpoint zip_star_fuel (fuel : nat) (ls : list (list nat)) : list (list nat) :=
  match fuel with
  | 0 => []
  | S fuel' =>
      if forallb (fun l => negb (length l =? 0)) ls
      then map (hd 0) ls :: zip_star_fuel fuel' (map (@tl nat) ls)
      else []
  end.

Definition zip_star (ls : list (list nat)) : list (list nat) :=
  match ls with
  | [] => []
  | l :: _ => zip_star_fuel (length l) ls
  end.

(** [a, b = xs] *)
Definition unpack2 {A : Type} (xs : list A) : result (A * A) :=
  match xs with
  | [a; b] => Ok (a, b)
  | _ => Raise ValueError
  end.

Definition vp_from_kron_facs (factors : list (tensor R))
  : result (tensor R -> result (tensor R)) :=
  assert_ (all_tensors_of_order 2 factors) ;;;
  let shapes := map (@shape R) factors in
  rc <- unpack2 (zip_star shapes) ;;
  let col_dims := snd rc in
  let num_factors := length shapes in
  equation <- vp_einsum_equation num_factors ;;
  let vp := fun v : tensor R =>
    assert_ (length (shape v) =? 1) ;;;
    v_reshaped <- view v col_dims ;;
    out <- einsum equation (v_reshaped :: factors) ;;
    Ok (view_flat out) in
  Ok vp.

Definition multiply_vec_with_kron_facs (factors : list (tensor R))
    (v : tensor R) : result (tensor R) :=
  vp <- vp_from_kron_facs factors ;;
  vp v.

(* ================================================================== *)
(** ** backpack/secondorder/hbp/conv2d.py *)
(* ================================================================== *)

(** Modelled from the spec: the strategy selectors
    ([backpack/secondorder/strategies.py] is not under src/).  Each is
    "one of a small closed set of tags": [is_sqrt] versus
    [is_batch_average] for the backpropagation strategy, and
    [should_average_param_jac] versus the non-averaged variant for the
    expectation approximation. *)
Inductive BackpropStrategy : Type := SQRT | BATCH_AVERAGE.

Inductive ExpectationApproximation : Type := AVERAGE_PARAM_JAC | NO_AVERAGE.

Definition is_batch_average (s : BackpropStrategy) : bool :=
  match s with BATCH_AVERAGE => true | SQRT => false end.

Definition is_sqrt (s : BackpropStrategy) : bool :=
  match s with SQRT => true | BATCH_AVERAGE => false end.

Definition should_average_param_jac (s : ExpectationApproximation) : bool :=
  match s with AVERAGE_PARAM_JAC => true | NO_AVERAGE => false end.

(** What a handler reads from itself: the strategies of its extension
    ([_get_bp_strategy_from_extension], [_get_ea_strategy_from_extension])
    and the backpropagated quantity ([get_mat_from_ctx]). *)
Record hbp_self : Type := {
  bp_strategy : BackpropStrategy;
  ea_strategy : ExpectationApproximation;
  mat_from_ctx : tensor R
}.

Section HBPConv2d.

(** The helpers of [backpack/utils/conv.py], which is not under src/, are
    parameters: the im2col transform of the layer and the reshape that
    separates channels from pixels. *)
Variable unfold_func : torch_module -> tensor R -> result (tensor R).
Variable separate_channels_and_pixels :
  torch_module -> tensor R -> result (tensor R).

Definition _factor_from_sqrt (self : hbp_self) (module : torch_module)
  : result (tensor R) :=
  let sqrt_ggn := mat_from_ctx self in
  sqrt_ggn <- separate_channels_and_pixels module sqrt_ggn ;;
  sqrt_ggn <- einsum "bijc->bic" [sqrt_ggn] ;;
  einsum "bic,blc->il" [sqrt_ggn; sqrt_ggn].

(** The generator [_factors_from_input], run to exhaustion: the factors it
    yields, or the exception that ends it.  Its body runs when the [for]
    loop of the caller first asks for an element. *)
Definition _factors_from_input (self : hbp_self) (module : torch_module)
  : result (list (tensor R)) :=
  X <- unfold_func module (input0 module) ;;
  batch <- getitem (shape X) 0 ;;
  let ea_strategy := ea_strategy self in
  if should_average_param_jac ea_strategy
  then Raise NotImplementedError
  else
    XX <- einsum "bik,bjk->ij" [X; X] ;;
    Ok [div_int XX batch].

Definition _weight_for_sqrt (self : hbp_self) (module : torch_module)
  : result (list (tensor R)) :=
  f <- _factor_from_sqrt self module ;;
  let kron_factors := [f] in
  factors <- _factors_from_input self module ;;
  Ok (fold_left (fun acc factor => acc ++ [factor]) factors kron_factors).

(** A method without a matching branch returns Python's [None]. *)
Definition HBPConv2d_weight (self : hbp_self) (module : torch_module)
  : result (option (list (tensor R))) :=
  let bp_strategy := bp_strategy self in
  if is_batch_average bp_strategy then Raise NotImplementedError
  else if is_sqrt bp_strategy
       then kf <- _weight_for_sqrt self module ;; Ok (Some kf)
       else Ok None.

Definition _bias_for_sqrt (self : hbp_self) (module : torch_module)
  : result (list (tensor R)) :=
  f <- _factor_from_sqrt self module ;;
  Ok [f].

Definition HBPConv2d_bias (self : hbp_self) (module : torch_module)
  : result (option (list (tensor R))) :=
  let bp_strategy := bp_strategy self in
  if is_batch_average bp_strategy then Raise NotImplementedError
  else if is_sqrt bp_strategy
       then kf <- _bias_for_sqrt self module ;; Ok (Some kf)
       else Ok None.

End HBPConv2d.

End Model.

Arguments torch_module R : clear implicits.
Arguments hbp_self R : clear implicits.

(* ================================================================== *)
(** ** Notions used to state the properties *)
(* ================================================================== *)

(** The numbered form of the equation built by [vp_einsum_equation n]:
    the vector carries the [n] column labels, factor [k] carries its row
    label [k] and its column label [n + k]; the row labels are kept, the
    column labels are summed. *)
Definition vp_plan (n : nat) : plan :=
  {| n_out := n;
     n_sum := n;
     ops_pos := seq n n :: map (fun k => [k; n + k]) (seq 0 n) |}.

(** The shapes of matrices with row counts [rs] and column counts [cs]. *)
Definition matrix_shapes (rs cs : list nat) : list (list nat) :=
  map (fun rc => [fst rc; snd rc]) (combine rs cs).

Section Notions.

Context {R : Type} `{Scalar R}.

(** Row counts and column counts of a list of matrices. *)
Definition rows (fs : list (tensor R)) : list nat :=
  map (fun f => nth 0 (shape f) 0) fs.

Definition cols (fs : list (tensor R)) : list nat :=
  map (fun f => nth 1 (shape f) 0) fs.

(** The entries of the factors selected by a row multi-index [o] and a
    column multi-index [s]: factor [k] is read at [(o[k], s[k])]. *)
Definition fac_entries (fs : list (tensor R)) (o s : list nat) : list R :=
  map (fun kf => entry (snd kf) [nth (fst kf) o 0; nth (fst kf) s 0])
      (combine (seq 0 (length fs)) fs).



(** What the wrappers do to a bare matrix: it enters as a stack of one
    vector and the added axis is removed from the result. *)
Definition promote (mat : tensor R) : tensor R :=
  if length (shape mat) =? 2 then add_V_dim mat else mat.

Definition demote (mat out : tensor R) : tensor R :=
  if length (shape mat) =? 2 then remove_V_dim out else out.

(** The value the weight wrapper uses for [sum_batch]. *)
Definition sum_batch_of (kw : kwargs) : bool :=
  match kw_sum_batch kw with Some b => b | None => true end.

(** [mat] is in the old layout [[N, D, V]], a bare [[N, D]] matrix being
    a stack of [V = 1] vectors. *)
Definition old_layout (mat : tensor R) (N D V : nat) : Prop :=
  (shape mat = [N; D] /\ V = 1) \/ shape mat = [N; D; V].

(** The old-layout shape with leading axes [dims], as the wrappers return
    it for the input [mat]. *)
Definition old_layout_result (mat : tensor R) (dims : list nat) (V : nat)
  : list nat :=
  if length (shape mat) =? 2 then dims else dims ++ [V].

End Notions.

(* ================================================================== *)
(** ** Concrete data for the examples *)
(* ================================================================== *)

(** Helpers of a convolution with a 1x1 kernel, stride 1 and no padding,
    as instances of the parameters of [HBPConv2d]: unfolding an input
    [[N, C, H, W]] is the reshape to [[N, C, H * W]], and the
    backpropagated quantity is viewed as [[batch, channels, pixels, -1]]. *)
Definition unfold_1x1 {R : Type} `{Scalar R} (module : torch_module R)
    (x : tensor R) : result (tensor R) :=
  match shape x with
  | [n; c; h; w] => view x [n; c; h * w]
  | _ => Raise RuntimeError
  end.

Definition separate_1x1 {R : Type} `{Scalar R} (module : torch_module R)
    (t : tensor R) : result (tensor R) :=
  batch <- getitem (shape (input0 module)) 0 ;;
  channels <- getitem (output_shape module) 1 ;;
  h <- getitem (output_shape module) 2 ;;
  w <- getitem (output_shape module) 3 ;;
  let pixels := h * w in
  view t [batch; channels; pixels;
          numel t / (batch * channels * pixels)].

Definition zeros {R : Type} `{Scalar R} (s : list nat) : tensor R :=
  {| shape := s; data := repeat rzero (torch_prod s) |}.

Definition ex_tensor (s : list nat) (d : list Z) : tensor Z :=
  {| shape := s; data := d |}.

Definition ex_A : tensor Z := ex_tensor [2; 2] [1; 2; 3; 4]%Z.
Definition ex_B : tensor Z :=
  ex_tensor [2; 3] [1; 10; 100; 1000; 10000; 100000]%Z.
Definition ex_v : tensor Z := ex_tensor [6] [1; 2; 3; 4; 5; 6]%Z.
Definition ex_vector : tensor Z := ex_tensor [2] [1; 2]%Z.
Definition ex_unit : tensor Z := ex_tensor [1; 1] [1]%Z.
Definition ex_one : tensor Z := ex_tensor [1] [1]%Z.
Definition ex_mat : tensor Z :=
  ex_tensor [2; 3; 2] [1; 2; 3; 4; 5; 6; 7; 8; 9; 10; 11; 12]%Z.
Definition ex_mat2 : tensor Z := ex_tensor [2; 3] [1; 2; 3; 4; 5; 6]%Z.

(** A layer with output [[2, 3, 1]], input [[2, 2]] and a [3 x 2] weight. *)
Definition ex_module : torch_module Z :=
  {| output_shape := [2; 3; 1];
     input0_shape := [2; 2];
     input0 := ex_tensor [2; 2] [1; 2; 3; 4]%Z;
     weight := ex_tensor [3; 2] [1; 2; 3; 4; 5; 6]%Z |}.

(** A layer with the same shape [[2, 3]] on both sides. *)
Definition ex_module_same : torch_module Z :=
  {| output_shape := [2; 3];
     input0_shape := [2; 3];
     input0 := ex_mat2;
     weight := ex_tensor [3; 2] [1; 2; 3; 4; 5; 6]%Z |}.

(** A layer whose weight is a single number (a tensor of rank 0). *)
Definition ex_module_scalar_weight : torch_module Z :=
  {| output_shape := [2; 3];
     input0_shape := [2; 3];
     input0 := ex_mat2;
     weight := ex_tensor [] [7]%Z |}.

(** A 1x1 convolution on one 1x1 image with one channel. *)
Definition ex_conv : torch_module Z :=
  {| output_shape := [1; 1; 1; 1];
     input0_shape := [1; 1; 1; 1];
     input0 := ex_tensor [1; 1; 1; 1] [2]%Z;
     weight := ex_tensor [1; 1; 1; 1] [5]%Z |}.

Definition ex_self (bp : BackpropStrategy) (ea : ExpectationApproximation)
  : hbp_self Z :=
  {| bp_strategy := bp; ea_strategy := ea;
     mat_from_ctx := ex_tensor [1; 1; 1] [3]%Z |}.

(** A handler that returns its input, and a parameter handler that
    returns zeros of the shape the weight wrapper expects. *)
Definition ex_identity_handler : @handler Z unit unit :=
  fun _ _ _ _ m _ => Ok m.

Definition ex_weight_handler : @handler Z unit unit :=
  fun _ module _ _ m kw =>
    let V := nth 0 (shape m) 0 in
    let N := nth 1 (shape m) 0 in
    if sum_batch_of kw
    then Ok (zeros (V :: shape (weight module)))
    else Ok (zeros (V :: N :: shape (weight module))).

Definition ex_no_kwargs : kwargs := {| kw_sum_batch := None |}.
Definition ex_per_sample : kwargs := {| kw_sum_batch := Some false |}.

(** A well-formed tensor in the new layout [[V, N, *feat]] of [ex_module]. *)
Definition ex_new : tensor Z :=
  ex_tensor [2; 2; 3; 1] [1; 3; 5; 7; 9; 11; 2; 4; 6; 8; 10; 12]%Z.

(** A layer with input [[2, 3, 1]]. *)
Definition ex_module_in : torch_module Z :=
  {| output_shape := [2; 3; 1];
     input0_shape := [2; 3; 1];
     input0 := ex_tensor [2; 3; 1] [1; 2; 3; 4; 5; 6]%Z;
     weight := ex_tensor [3; 2] [1; 2; 3; 4; 5; 6]%Z |}.

Definition ex_C : tensor Z := ex_tensor [1; 2] [5; 7]%Z.

(** A backpropagated quantity already separated into
    [[batch, channels, pixels, columns]], and an unfolded input. *)
Definition ex_sqrt : tensor Z :=
  ex_tensor [1; 2; 2; 1] [1; 2; 3; 4]%Z.
Definition ex_unfolded : tensor Z :=
  ex_tensor [1; 2; 2] [1; 2; 3; 4]%Z.

(* ================================================================== *)
(** ** backpack/secondorder/hbp/conv2d.py: class HBPConv2dConcat *)
(* ================================================================== *)

Section HBPConv2dConcatDef.

Context {R : Type} `{Scalar R}.

(** [module.homogeneous_unfolded_input()], a method of the layer that is
    not under src/, is a parameter, as is the helper of
    [backpack/utils/conv.py]. *)
Variable homogeneous_unfolded_input : torch_module R -> result (tensor R).
Variable separate_channels_and_pixels :
  torch_module R -> tensor R -> result (tensor R).

Definition HBPConv2dConcat_factor_from_sqrt (self : hbp_self R)
    (module : torch_module R) : result (tensor R) :=
  let sqrt_ggn := mat_from_ctx self in
  sqrt_ggn <- separate_channels_and_pixels module sqrt_ggn ;;
  sqrt_ggn <- einsum "bijc->bic" [sqrt_ggn] ;;
  einsum "bic,blc->il" [sqrt_ggn; sqrt_ggn].

Definition HBPConv2dConcat_factors_from_input (self : hbp_self R)
    (module : torch_module R) : result (list (tensor R)) :=
  X <- homogeneous_unfolded_input module ;;
  batch <- getitem (shape X) 0 ;;
  let ea_strategy := ea_strategy self in
  if should_average_param_jac ea_strategy
  then Raise NotImplementedError
  else
    XX <- einsum "bik,bjk->ij" [X; X] ;;
    Ok [div_int XX batch].

Definition HBPConv2dConcat_weight_for_sqrt (self : hbp_self R)
    (module : torch_module R) : result (list (tensor R)) :=
  f <- HBPConv2dConcat_factor_from_sqrt self module ;;
  let kron_factors := [f] in
  factors <- HBPConv2dConcat_factors_from_input self module ;;
  Ok (fold_left (fun acc factor => acc ++ [factor]) factors kron_factors).

Definition HBPConv2dConcat_weight (self : hbp_self R)
    (module : torch_module R) : result (option (list (tensor R))) :=
  let bp_strategy := bp_strategy self in
  if is_batch_average bp_strategy then Raise NotImplementedError
  else if is_sqrt bp_strategy
       then kf <- HBPConv2dConcat_weight_for_sqrt self module ;; Ok (Some kf)
       else Ok None.

End HBPConv2dConcatDef.

(* ================================================================== *)
(** ** Running the letter generator *)
(* ================================================================== *)

(** [[next(letters) for _ in range(k)]] *)
Fixpoint draw (k : nat) (g : letters) : result (list ascii * letters) :=
  match k with
  | 0 => Ok ([], g)
  | S k' =>
      cg <- next g ;;
      r <- draw k' (snd cg) ;;
      Ok (fst cg :: fst r, snd r)
  end.

(* ================================================================== *)
(** ** backpack/extensions/secondorder/diag_hessian/__init__.py *)
(* ================================================================== *)

Module diag_hessian.

(** The layer classes the file imports and uses as dictionary keys. *)
Inductive layer : Type :=
| ELU | SELU
| AdaptiveAvgPool1d | AdaptiveAvgPool2d | AdaptiveAvgPool3d
| AvgPool1d | AvgPool2d | AvgPool3d
| BCEWithLogitsLoss
| Conv1d | Conv2d | Conv3d
| ConvTranspose1d | ConvTranspose2d | ConvTranspose3d
| CrossEntropyLoss | Dropout | Flatten | Identity | LeakyReLU | Linear
| LogSigmoid
| MaxPool1d | MaxPool2d | MaxPool3d
| MSELoss | ReLU | Sigmoid | Tanh | ZeroPad2d
| SumModule | Pad | ScaleModule | Slicing.

(** The module extensions the dictionaries are filled with. *)
Inductive module_extension : Type :=
| DiagHMSELoss | DiagHCrossEntropyLoss | DiagHBCEWithLogitsLoss
| DiagHLinear | BatchDiagHLinear
| DiagHMaxPool1d | DiagHMaxPool2d | DiagHMaxPool3d
| DiagHAvgPool1d | DiagHAvgPool2d | DiagHAvgPool3d
| DiagHAdaptiveAvgPoolNd (N : nat)
| DiagHConv1d | DiagHConv2d | DiagHConv3d
| BatchDiagHConv1d | BatchDiagHConv2d | BatchDiagHConv3d
| DiagHConvTranspose1d | DiagHConvTranspose2d | DiagHConvTranspose3d
| BatchDiagHConvTranspose1d | BatchDiagHConvTranspose2d
| BatchDiagHConvTranspose3d
| DiagHDropout | DiagHFlatten | DiagHScaleModule | DiagHSumModule
| DiagHReLU | DiagHSigmoid | DiagHTanh | DiagHLeakyReLU | DiagHLogSigmoid
| DiagHELU | DiagHSELU
| DiagHPad | DiagHSlicing | DiagHZeroPad2d.

Definition layer_eq_dec (a b : layer) : {a = b} + {a <> b}.
Proof. decide equality. Defined.

Definition module_extension_eq_dec (a b : module_extension)
  : {a = b} + {a <> b}.
Proof. decide equality. apply Nat.eq_dec. Defined.

(** What the constructors pass to [SecondOrderBackpropExtension]; the
    dictionary literal is the list of its items in source order. *)
Record extension : Type := {
  savefield : string;
  fail_mode : string;
  module_exts : list (layer * module_extension)
}.

(** [d.get(key)] on a dictionary literal: the last item with the key. *)
Fixpoint dict_get (d : list (layer * module_extension)) (key : layer)
  : option module_extension :=
  match d with
  | [] => None
  | (k, v) :: d' =>
      match dict_get d' key with
      | Some v' => Some v'
      | None => if layer_eq_dec k key then Some v else None
      end
  end.

Definition DiagHessian : extension :=
  {| savefield := "diag_h";
     fail_mode := "ERROR";
     module_exts :=
       [ (MSELoss, DiagHMSELoss);
         (CrossEntropyLoss, DiagHCrossEntropyLoss);
         (Linear, DiagHLinear);
         (MaxPool1d, DiagHMaxPool1d);
         (MaxPool2d, DiagHMaxPool2d);
         (MaxPool3d, DiagHMaxPool3d);
         (AvgPool1d, DiagHAvgPool1d);
         (AvgPool2d, DiagHAvgPool2d);
         (AvgPool3d, DiagHAvgPool3d);
         (AdaptiveAvgPool1d, DiagHAdaptiveAvgPoolNd 1);
         (AdaptiveAvgPool2d, DiagHAdaptiveAvgPoolNd 2);
         (AdaptiveAvgPool3d, DiagHAdaptiveAvgPoolNd 3);
         (BCEWithLogitsLoss, DiagHBCEWithLogitsLoss);
         (Conv1d, DiagHConv1d);
         (Conv2d, DiagHConv2d);
         (Conv3d, DiagHConv3d);
         (ConvTranspose1d, DiagHConvTranspose1d);
         (ConvTranspose2d, DiagHConvTranspose2d);
         (ConvTranspose3d, DiagHConvTranspose3d);
         (Dropout, DiagHDropout);
         (Flatten, DiagHFlatten);
         (Identity, DiagHScaleModule);
         (ReLU, DiagHReLU);
         (ScaleModule, DiagHScaleModule);
         (Sigmoid, DiagHSigmoid);
         (SumModule, DiagHSumModule);
         (Tanh, DiagHTanh);
         (LeakyReLU, DiagHLeakyReLU);
         (LogSigmoid, DiagHLogSigmoid);
         (ELU, DiagHELU);
         (SELU, DiagHSELU);
         (Pad, DiagHPad);
         (Slicing, DiagHSlicing);
         (ZeroPad2d, DiagHZeroPad2d) ] |}.

Definition BatchDiagHessian : extension :=
  {| savefield := "diag_h_batch";
     fail_mode := "ERROR";
     module_exts :=
       [ (MSELoss, DiagHMSELoss);
         (CrossEntropyLoss, DiagHCrossEntropyLoss);
         (Linear, BatchDiagHLinear);
         (MaxPool1d, DiagHMaxPool1d);
         (MaxPool2d, DiagHMaxPool2d);
         (MaxPool3d, DiagHMaxPool3d);
         (AvgPool1d, DiagHAvgPool1d);
         (AvgPool2d, DiagHAvgPool2d);
         (AvgPool3d, DiagHAvgPool3d);
         (AdaptiveAvgPool1d, DiagHAdaptiveAvgPoolNd 1);
         (AdaptiveAvgPool2d, DiagHAdaptiveAvgPoolNd 2);
         (AdaptiveAvgPool3d, DiagHAdaptiveAvgPoolNd 3);
         (BCEWithLogitsLoss, DiagHBCEWithLogitsLoss);
         (Conv1d, BatchDiagHConv1d);
         (Conv2d, BatchDiagHConv2d);
         (Conv3d, BatchDiagHConv3d);
         (ConvTranspose1d, BatchDiagHConvTranspose1d);
         (ConvTranspose2d, BatchDiagHConvTranspose2d);
         (ConvTranspose3d, BatchDiagHConvTranspose3d);
         (Dropout, DiagHDropout);
         (Flatten, DiagHFlatten);
         (Identity, DiagHScaleModule);
         (ReLU, DiagHReLU);
         (ScaleModule, DiagHScaleModule);
         (Sigmoid, DiagHSigmoid);
         (SumModule, DiagHSumModule);
         (Tanh, DiagHTanh);
         (LeakyReLU, DiagHLeakyReLU);
         (LogSigmoid, DiagHLogSigmoid);
         (ELU, DiagHELU);
         (SELU, DiagHSELU);
         (Pad, DiagHPad);
         (Slicing, DiagHSlicing);
         (ZeroPad2d, DiagHZeroPad2d) ] |}.

(** The layers whose handler computes a quantity for parameters. *)
Definition has_parameters (l : layer) : bool :=
  match l with
  | Linear | Conv1d | Conv2d | Conv3d
  | ConvTranspose1d | ConvTranspose2d | ConvTranspose3d => true
  | _ => false
  end.


End diag_hessian.

(* ================================================================== *)
(** ** Proof automation *)
(* ================================================================== *)

(** Replace the plan of a literal equation by its value. *)
Ltac plan_of_literal :=
  match goal with
  | |- context [einsum_plan ?e] =>
      let p := eval vm_compute in (einsum_plan e) in
      change (einsum_plan e) with p
  end.

(** Run [einsum] on operands whose shapes are known lists of extents. *)
Ltac run_einsum :=
  unfold einsum; plan_of_literal; cbv beta iota;
  unfold operands_ok; cbn [map ops_pos n_out n_sum seq];
  repeat match goal with Hs : shape _ = _ |- _ => rewrite !Hs end;
  cbn -[tuples]; rewrite ?Nat.eqb_refl; cbn -[tuples].

(** Name the components of a multi-index known to be within bounds. *)
Ltac invert_idx F :=
  repeat match type of F with
         | Forall2 lt _ (_ :: _) =>
             let i := fresh "i" in let t := fresh "t" in
             let Hi := fresh "Hi" in let F' := fresh "F" in
             inversion F as [|i ? t ? Hi F']; subst; clear F; rename F' into F
         | Forall2 lt _ [] => inversion F; subst; clear F
         end.

(** Settle one side of a case of an outcome table. *)
Ltac outcome :=
  match goal with
  | H : exists _, _ = Ok _ |- _ => destruct H as (? & H); discriminate H
  | H : _ /\ _ |- _ => destruct H; first [discriminate | cbn [length] in *; lia]
  | H : Raise _ = Raise _ |- _ => discriminate H
  | H : Ok _ = Raise _ |- _ => discriminate H
  | H : _ :: _ = [] |- _ => discriminate H
  | |- exists _, _ = Ok _ => eexists; reflexivity
  | |- _ /\ _ => split; first [reflexivity | cbn [length] in *; lia]
  | |- _ => first [reflexivity | discriminate | cbn [length] in *; lia]
  end.

(* ================================================================== *)
(** * Row-major indexing *)
(* ================================================================== *)

Lemma shape_eqb_refl (s : list nat) : shape_eqb s s = true.
Proof. unfold shape_eqb. destruct (list_eq_dec Nat.eq_dec s s); congruence. Qed.

Lemma torch_prod_cons (d : nat) (ds : list nat) :
  torch_prod (d :: ds) = d * torch_prod ds.
Proof. reflexivity. Qed.

Lemma map_add_seq (k len : nat) :
  map (fun r => k + r) (seq 0 len) = seq k len.
Proof.
  induction k as [|k IH]; simpl.
  - apply map_id.
  - rewrite <- seq_shift, <- IH, map_map. reflexivity.
Qed.

Lemma flat_map_seq_blocks (P d : nat) :
  flat_map (fun i => seq (i * P) P) (seq 0 d) = seq 0 (d * P).
Proof.
  induction d as [|d IH].
  - reflexivity.
  - rewrite seq_S, flat_map_app, IH. simpl. rewrite app_nil_r.
    replace (P + d * P) with (d * P + P) by lia.
    rewrite (seq_app (d * P) P 0). reflexivity.
Qed.

(** The multi-indices are enumerated in the order of their offsets. *)
Lemma map_ravel_tuples (dims : list nat) :
  map (ravel dims) (tuples dims) = seq 0 (torch_prod dims).
Proof.
  induction dims as [|d ds IH]; simpl.
  - reflexivity.
  - rewrite flat_map_concat_map, concat_map, map_map.
    rewrite <- flat_map_concat_map.
    rewrite (flat_map_ext _ (fun i => seq (i * torch_prod ds) (torch_prod ds))).
    + apply flat_map_seq_blocks.
    + intros i. rewrite map_map. simpl.
      rewrite <- (map_map (ravel ds) (fun r => i * torch_prod ds + r)), IH.
      apply map_add_seq.
Qed.

Lemma tuples_length (dims : list nat) :
  length (tuples dims) = torch_prod dims.
Proof.
  rewrite <- (length_map (ravel dims)), map_ravel_tuples. apply length_seq.
Qed.

(** A multi-index is enumerated exactly when it is within bounds. *)
Lemma in_tuples (dims idx : list nat) :
  In idx (tuples dims) <-> Forall2 lt idx dims.
Proof.
  revert idx. induction dims as [|d ds IH]; intros idx; simpl.
  - split.
    + intros [<-|[]]. constructor.
    + intros F. inversion F. now left.
  - rewrite in_flat_map. split.
    + intros (i & Hi & Hin). apply in_map_iff in Hin as (t & <- & Ht).
      apply in_seq in Hi. constructor; [lia | now apply IH].
    + intros F. inversion F as [|i d' t ds' Hlt Ft]; subst.
      exists i. split; [apply in_seq; lia|].
      apply in_map, IH, Ft.
Qed.


Lemma ravel_lt (dims idx : list nat) :
  Forall2 lt idx dims -> ravel dims idx < torch_prod dims.
Proof.
  intros F. apply in_tuples in F.
  apply (in_map (ravel dims)) in F.
  rewrite map_ravel_tuples in F. apply in_seq in F. lia.
Qed.

(** The multi-index stored at the offset of [idx] is [idx]. *)
Lemma nth_ravel_tuples (dims idx d0 : list nat) :
  Forall2 lt idx dims -> nth (ravel dims idx) (tuples dims) d0 = idx.
Proof.
  intros F. apply in_tuples in F.
  destruct (In_nth _ _ d0 F) as (k & Hk & Hnth).
  assert (E : ravel dims idx = k).
  { rewrite <- Hnth.
    rewrite <- (map_nth (ravel dims)), map_ravel_tuples.
    rewrite tuples_length in Hk.
    rewrite (nth_indep _ _ 0) by now rewrite length_seq.
    now rewrite seq_nth. }
  now rewrite E.
Qed.

(** Reading a table built over the multi-indices at the offset of [idx]. *)
Lemma nth_map_tuples {A : Type} (f : list nat -> A) (dims idx : list nat) (d : A) :
  Forall2 lt idx dims ->
  nth (ravel dims idx) (map f (tuples dims)) d = f idx.
Proof.
  intros F.
  rewrite (nth_indep _ d (f [])).
  - rewrite (map_nth f), nth_ravel_tuples; auto.
  - rewrite length_map, tuples_length. now apply ravel_lt.
Qed.

(** Reading a contiguous list at every offset, in order, gives it back. *)
Lemma map_nth_ravel_tuples {A : Type} (l : list A) (dims : list nat) (d : A) :
  length l = torch_prod dims ->
  map (fun idx => nth (ravel dims idx) l d) (tuples dims) = l.
Proof.
  intros Hlen.
  rewrite <- (map_map (ravel dims) (fun k => nth k l d)), map_ravel_tuples.
  rewrite <- Hlen. clear Hlen dims.
  induction l as [|x l IH]; simpl.
  - reflexivity.
  - rewrite <- seq_shift, map_map. simpl. now rewrite IH.
Qed.

(* ================================================================== *)
(** * einsum at the equations of the code *)
(* ================================================================== *)

Section EinsumEquations.

Context {R : Type} `{Scalar R}.

Lemma einsum_ndv_vnd (t : tensor R) (n d v : nat) :
  shape t = [n; d; v] ->
  einsum "ndv->vnd" [t] =
  Ok {| shape := [v; n; d];
        data := map (fun o => entry t [nth 1 o 0; nth 2 o 0; nth 0 o 0])
                    (tuples [v; n; d]) |}.
Proof.
  intros Hs. run_einsum. do 2 f_equal.
  unfold einsum_eval. apply map_ext. intros o. cbn. now rewrite app_nil_r.
Qed.

Lemma einsum_vnc_ncv (t : tensor R) (v n c : nat) :
  shape t = [v; n; c] ->
  einsum "vnc->ncv" [t] =
  Ok {| shape := [n; c; v];
        data := map (fun o => entry t [nth 2 o 0; nth 0 o 0; nth 1 o 0])
                    (tuples [n; c; v]) |}.
Proof.
  intros Hs. run_einsum. do 2 f_equal.
  unfold einsum_eval. apply map_ext. intros o. cbn. now rewrite app_nil_r.
Qed.

End EinsumEquations.

Section Converter.

Context {R : Type} `{Scalar R}.

(** Moving the [V] axis to the front and back to the end is the identity
    on the entries. *)
Lemma ndv_vnd_vnc_ncv (l : list R) (n d v : nat) :
  length l = torch_prod [n; d; v] ->
  map (fun o =>
         entry {| shape := [v; n; d];
                  data := map (fun o' => entry {| shape := [n; d; v]; data := l |}
                                           [nth 1 o' 0; nth 2 o' 0; nth 0 o' 0])
                              (tuples [v; n; d]) |}
               [nth 2 o 0; nth 0 o 0; nth 1 o 0])
      (tuples [n; d; v]) = l.
Proof.
  intros Hlen.
  transitivity (map (fun idx => nth (ravel [n; d; v] idx) l rzero)
                    (tuples [n; d; v]));
    [|now apply map_nth_ravel_tuples].
  apply map_ext_in. intros o Ho.
  apply in_tuples in Ho. invert_idx Ho.
  unfold entry at 1. cbn [shape data nth].
  rewrite (nth_map_tuples _ (dims := [v; n; d]) (idx := [i1; i; i0])).
  - reflexivity.
  - repeat constructor; assumption.
Qed.

(** C1.  For every layer with output shape [[N, *featureDims]] and every
    tensor [mat] of shape [[N, prod(featureDims), V]], converting to the
    new output layout and back reproduces [mat], shape and entries:
    [old_output_convention(new_output_convention(mat, module), module)
    == mat]. *)
Theorem output_convention_round_trip
    (mat : tensor R) (module : torch_module R) (N V : nat) (featureDims : list nat) :
  output_shape module = N :: featureDims ->
  shape mat = [N; torch_prod featureDims; V] ->
  wf mat ->
  (new_mat <- new_output_convention mat module ;;
   old_output_convention new_mat module) = Ok mat.
Proof.
  intros Hout Hshape Hwf.
  unfold new_output_convention. rewrite Hout, Hshape. cbn [getitem nth_error getitem_last rev app tl bind].
  rewrite shape_eqb_refl. cbn [assert_ bind].
  rewrite (einsum_ndv_vnd mat Hshape). cbn [bind].
  unfold reshape, numel. cbn [shape data].
  assert (E : torch_prod (V :: N :: featureDims)
              = torch_prod [V; N; torch_prod featureDims]) by (simpl; lia).
  rewrite E, Nat.eqb_refl. cbn [bind].
  unfold old_output_convention. rewrite Hout.
  cbn [getitem nth_error tl bind shape app].
  rewrite shape_eqb_refl. cbn [assert_ bind].
  unfold reshape, numel. cbn [shape data]. rewrite E, Nat.eqb_refl. cbn [bind].
  rewrite (einsum_vnc_ncv _ (v := V) (n := N) (c := torch_prod featureDims))
    by reflexivity.
  f_equal. destruct mat as [s l]. cbn [shape data] in *. subst s. f_equal.
  unfold entry at 2. cbn [shape data].
  apply ndv_vnd_vnc_ncv. exact Hwf.
Qed.
End Converter.

Section KroneckerPair.

Context {R : Type} `{Scalar R}.

Lemma einsum_ij_kl_ikjl (A B : tensor R) (r1 c1 r2 c2 : nat) :
  shape A = [r1; c1] -> shape B = [r2; c2] ->
  einsum "ij,kl->ikjl" [A; B] =
  Ok {| shape := [r1; r2; c1; c2];
        data := map (fun o => rmul (entry A [nth 0 o 0; nth 2 o 0])
                                   (entry B [nth 1 o 0; nth 3 o 0]))
                    (tuples [r1; r2; c1; c2]) |}.
Proof.
  intros HA HB. run_einsum. do 2 f_equal.
  unfold einsum_eval. apply map_ext. intros o. cbn. now rewrite app_nil_r.
Qed.

Lemma matrix_from_two_kron_facs_eq (A B : tensor R) (r1 c1 r2 c2 : nat) :
  shape A = [r1; c1] -> shape B = [r2; c2] ->
  matrix_from_two_kron_facs A B =
  Ok {| shape := [r1 * r2; c1 * c2];
        data := map (fun o => rmul (entry A [nth 0 o 0; nth 2 o 0])
                                   (entry B [nth 1 o 0; nth 3 o 0]))
                    (tuples [r1; r2; c1; c2]) |}.
Proof.
  intros HA HB. unfold matrix_from_two_kron_facs, is_matrix, is_tensor_of_order.
  rewrite HA, HB. cbn [length Nat.eqb assert_ bind getitem nth_error].
  rewrite (einsum_ij_kl_ikjl A B HA HB). cbn [bind].
  unfold view, contiguous, reshape, numel. cbn [shape data].
  replace (torch_prod [r1 * r2; c1 * c2] =? torch_prod [r1; r2; c1; c2])
    with true; [reflexivity|].
  symmetry. apply Nat.eqb_eq. simpl. ring.
Qed.

(** C3.  For matrices [A] of shape [(r1, c1)] and [B] of shape [(r2, c2)],
    [matrix_from_two_kron_facs(A, B)] has shape [(r1*r2, c1*c2)] and its
    entry at row [i1*r2+i2], column [j1*c2+j2] is [A[i1,j1] * B[i2,j2]]. *)
Theorem matrix_from_two_kron_facs_entries (A B : tensor R) (r1 c1 r2 c2 : nat) :
  shape A = [r1; c1] -> shape B = [r2; c2] ->
  exists M : tensor R,
    matrix_from_two_kron_facs A B = Ok M
    /\ shape M = [r1 * r2; c1 * c2]
    /\ wf M
    /\ forall i1 i2 j1 j2 : nat,
        i1 < r1 -> i2 < r2 -> j1 < c1 -> j2 < c2 ->
        entry M [i1 * r2 + i2; j1 * c2 + j2]
        = rmul (entry A [i1; j1]) (entry B [i2; j2]).
Proof.
  intros HA HB. eexists. split; [apply (matrix_from_two_kron_facs_eq A B HA HB)|].
  split; [reflexivity|]. split.
  - unfold wf. cbn [shape data]. rewrite length_map, tuples_length. simpl. ring.
  - intros i1 i2 j1 j2 H1 H2 H3 H4. unfold entry at 1. cbn [shape data].
    replace (ravel [r1 * r2; c1 * c2] [i1 * r2 + i2; j1 * c2 + j2])
      with (ravel [r1; r2; c1; c2] [i1; i2; j1; j2]) by (simpl; ring).
    rewrite nth_map_tuples by (repeat constructor; assumption).
    reflexivity.
Qed.

End KroneckerPair.

Section KroneckerList.

Context {R : Type} `{Scalar R}.

Lemma is_matrix_shape (f : tensor R) :
  is_tensor_of_order 2 f = true ->
  shape f = [nth 0 (shape f) 0; nth 1 (shape f) 0].
Proof.
  unfold is_tensor_of_order. intros E. apply Nat.eqb_eq in E.
  destruct (shape f) as [|r [|c [|x l]]]; simpl in E; try discriminate.
  reflexivity.
Qed.

Lemma all_tensors_of_order_cons (n : nat) (f : tensor R) (fs : list (tensor R)) :
  all_tensors_of_order n (f :: fs)
  = is_tensor_of_order n f && all_tensors_of_order n fs.
Proof. reflexivity. Qed.

Lemma fac_entries_cons (f : tensor R) (fs : list (tensor R)) (a b : nat)
    (o s : list nat) :
  fac_entries (f :: fs) (a :: o) (b :: s)
  = entry f [a; b] :: fac_entries fs o s.
Proof.
  unfold fac_entries. cbn [length seq combine map fst snd nth]. f_equal.
  rewrite <- seq_shift.
  generalize (seq 0 (length fs)) as ks. intros ks. revert fs.
  induction ks as [|k ks IH]; intros [|g gs]; cbn; try reflexivity.
  now rewrite IH.
Qed.

Lemma kron_pair_entry (A B M : tensor R) (r1 c1 r2 c2 i1 i2 j1 j2 : nat) :
  shape A = [r1; c1] -> shape B = [r2; c2] ->
  matrix_from_two_kron_facs A B = Ok M ->
  i1 < r1 -> i2 < r2 -> j1 < c1 -> j2 < c2 ->
  entry M [i1 * r2 + i2; j1 * c2 + j2]
  = rmul (entry A [i1; j1]) (entry B [i2; j2]).
Proof.
  intros HA HB HM H1 H2 H3 H4.
  rewrite (matrix_from_two_kron_facs_eq A B HA HB) in HM.
  injection HM as <-. unfold entry at 1. cbn [shape data].
  replace (ravel [r1 * r2; c1 * c2] [i1 * r2 + i2; j1 * c2 + j2])
    with (ravel [r1; r2; c1; c2] [i1; i2; j1; j2]) by (simpl; ring).
  rewrite nth_map_tuples by (repeat constructor; assumption).
  reflexivity.
Qed.

(** The loop of [matrix_from_kron_facs], started from a matrix [m], on
    rank-2 factors: it returns a matrix whose entries are the products of
    the entries of [m] and of the factors. *)
Lemma matrix_from_kron_facs_loop_spec (fs : list (tensor R)) :
  forall (m : tensor R) (Rm Cm : nat),
    shape m = [Rm; Cm] ->
    all_tensors_of_order 2 fs = true ->
    exists M : tensor R,
      matrix_from_kron_facs_loop (Some m) fs = Ok (Some M)
      /\ shape M = [Rm * torch_prod (rows fs); Cm * torch_prod (cols fs)]
      /\ forall i j o s,
          i < Rm -> j < Cm ->
          Forall2 lt o (rows fs) -> Forall2 lt s (cols fs) ->
          entry M [i * torch_prod (rows fs) + ravel (rows fs) o;
                   j * torch_prod (cols fs) + ravel (cols fs) s]
          = fold_left rmul (fac_entries fs o s) (entry m [i; j]).
Proof.
  induction fs as [|f fs IH]; intros m Rm Cm Hm Hall.
  - exists m. split; [reflexivity|]. split.
    + rewrite Hm. simpl. f_equal; [|f_equal]; lia.
    + intros i j o s Hi Hj Fo Fs. inversion Fo; inversion Fs; subst.
      cbn. do 2 f_equal; [|f_equal]; lia.
  - rewrite all_tensors_of_order_cons in Hall.
    apply andb_prop in Hall as [Hf Hall].
    pose proof (is_matrix_shape f Hf) as Hsf.
    assert (Hrows : rows (f :: fs) = nth 0 (shape f) 0 :: rows fs) by reflexivity.
    assert (Hcols : cols (f :: fs) = nth 1 (shape f) 0 :: cols fs) by reflexivity.
    revert Hsf Hrows Hcols.
    generalize (nth 0 (shape f) 0) as r. generalize (nth 1 (shape f) 0) as c.
    intros c r Hsf Hrows Hcols. rewrite Hrows, Hcols.
    pose proof (matrix_from_two_kron_facs_eq m f Hm Hsf) as Hpair.
    cbn [matrix_from_kron_facs_loop]. rewrite Hpair. cbn [bind].
    match type of Hpair with _ = Ok ?t => set (m' := t) in * end.
    destruct (IH m' (Rm * r) (Cm * c) eq_refl Hall) as (M & HM & HsM & HeM).
    exists M. split; [exact HM|]. split.
    + rewrite HsM, !torch_prod_cons.
      f_equal; [|f_equal]; ring.
    + intros i j o s Hi Hj Fo Fs.
      inversion Fo as [|a r' o' rs' Ha Fo']; subst.
      inversion Fs as [|b c' s' cs' Hb Fs']; subst.
      rewrite fac_entries_cons. cbn [fold_left].
      rewrite <- (kron_pair_entry m f Hm Hsf Hpair Hi Ha Hj Hb).
      rewrite <- HeM; try assumption; try nia.
      cbn [ravel]. rewrite !torch_prod_cons.
      do 2 f_equal; [ring | f_equal; ring].
Qed.

End KroneckerList.











Section VpPositions.

Variables (n : nat) (rs cs : list nat).
Hypothesis Hrs : length rs = n.
Hypothesis Hcs : length cs = n.






End VpPositions.

Section FactoredProduct.

Context {R : Type} `{Scalar R}.

Lemma shapes_of_matrices (fs : list (tensor R)) :
  all_tensors_of_order 2 fs = true ->
  map (@shape R) fs = matrix_shapes (rows fs) (cols fs).
Proof.
  induction fs as [|f fs IH]; intros Hall.
  - reflexivity.
  - rewrite all_tensors_of_order_cons in Hall.
    apply andb_prop in Hall as [Hf Hall].
    cbn [map rows cols matrix_shapes combine fst snd].
    fold (rows fs). fold (cols fs). fold (matrix_shapes (rows fs) (cols fs)).
    rewrite <- IH by assumption. f_equal. now apply is_matrix_shape.
Qed.

Lemma rows_length (fs : list (tensor R)) : length (rows fs) = length fs.
Proof. apply length_map. Qed.

Lemma cols_length (fs : list (tensor R)) : length (cols fs) = length fs.
Proof. apply length_map. Qed.

(** [zip( *shapes )] of at least one matrix shape: the row counts and the
    column counts. *)
Lemma zip_star_matrices (f : tensor R) (fs : list (tensor R)) :
  all_tensors_of_order 2 (f :: fs) = true ->
  zip_star (map (@shape R) (f :: fs)) = [rows (f :: fs); cols (f :: fs)].
Proof.
  intros Hall. rewrite (shapes_of_matrices _ Hall).
  generalize (rows (f :: fs)) (cols (f :: fs))
             (rows_length (f :: fs)) (cols_length (f :: fs)).
  intros rs cs Hrs Hcs.
  destruct rs as [|r rs]; [discriminate|]. destruct cs as [|c cs]; [discriminate|].
  simpl in Hrs, Hcs.
  assert (Hlen : length rs = length cs) by lia. clear Hrs Hcs.
  unfold zip_star, matrix_shapes. cbn [combine map length fst snd zip_star_fuel].
  assert (Hnz : forall l : list (nat * nat),
             forallb (fun x : list nat => negb (length x =? 0))
                     (map (fun rc => [fst rc; snd rc]) l) = true).
  { induction l as [|x l IHl]; simpl; auto. }
  assert (Hnz1 : forall l : list (nat * nat),
             forallb (fun x : list nat => negb (length x =? 0))
                     (map (@tl nat) (map (fun rc => [fst rc; snd rc]) l)) = true).
  { induction l as [|x l IHl]; simpl; auto. }
  cbn [forallb length Nat.eqb negb andb hd tl]. rewrite Hnz.
  cbn [forallb length Nat.eqb negb andb hd tl]. rewrite Hnz1.
  f_equal; [|f_equal]; f_equal.
  - clear Hnz Hnz1. revert cs Hlen.
    induction rs as [|x rs IH]; intros [|y cs] Hlen; simpl in *;
      try discriminate; try reflexivity.
    f_equal. apply IH. lia.
  - clear Hnz Hnz1. revert cs Hlen.
    induction rs as [|x rs IH]; intros [|y cs] Hlen; simpl in *;
      try discriminate; try reflexivity.
    f_equal. apply IH. lia.
Qed.




End FactoredProduct.

Section DenseProduct.

Context {R : Type} `{ScalarLaws R}.





End DenseProduct.

Section KroneckerErrors.

Context {R : Type} `{Scalar R}.

Lemma all_tensors_of_order_false (n : nat) (fs : list (tensor R)) :
  all_tensors_of_order n fs = false <->
  exists f, In f fs /\ is_tensor_of_order n f = false.
Proof.
  induction fs as [|f fs IH].
  - split; [discriminate|]. intros (f & [] & _).
  - rewrite all_tensors_of_order_cons, andb_false_iff, IH. split.
    + intros [Hf|(g & Hg & Hgf)].
      * exists f. split; [now left|assumption].
      * exists g. split; [now right|assumption].
    + intros (g & [<-|Hg] & Hgf); [now left|].
      right. now exists g.
Qed.

(** Once a matrix has been accumulated, a factor that is not a matrix
    stops the loop at the assertion of [matrix_from_two_kron_facs]. *)
Lemma matrix_from_kron_facs_loop_not_matrix (fs : list (tensor R)) :
  forall m : tensor R,
    is_matrix m = true ->
    all_tensors_of_order 2 fs = false ->
    matrix_from_kron_facs_loop (Some m) fs = Raise (AssertionError None).
Proof.
  induction fs as [|f fs IH]; intros m Hm Hall.
  - discriminate.
  - rewrite all_tensors_of_order_cons in Hall.
    cbn [matrix_from_kron_facs_loop].
    destruct (is_tensor_of_order 2 f) eqn:Hf.
    + simpl in Hall.
      rewrite (matrix_from_two_kron_facs_eq m f
                 (is_matrix_shape m Hm) (is_matrix_shape f Hf)).
      cbn [bind]. apply IH; [reflexivity | assumption].
    + unfold matrix_from_two_kron_facs.
      rewrite Hm. unfold is_matrix. rewrite Hf. reflexivity.
Qed.

Lemma matrix_from_kron_facs_not_matrix (fs : list (tensor R)) :
  all_tensors_of_order 2 fs = false ->
  matrix_from_kron_facs fs = Raise (AssertionError None).
Proof.
  intros Hall. destruct fs as [|f fs]; [discriminate|].
  unfold matrix_from_kron_facs. cbn [matrix_from_kron_facs_loop].
  rewrite all_tensors_of_order_cons in Hall. unfold is_matrix.
  destruct (is_tensor_of_order 2 f) eqn:Hf; [|reflexivity].
  cbn [assert_ bind]. now apply matrix_from_kron_facs_loop_not_matrix.
Qed.

(** On rank-2 factors the loop returns the matrix whose entry at the row
    offset of [o] and the column offset of [s] is the product of the
    factor entries at [(o[k], s[k])]. *)
Lemma matrix_from_kron_facs_matrices (f : tensor R) (fs : list (tensor R)) :
  all_tensors_of_order 2 (f :: fs) = true ->
  exists M : tensor R,
    matrix_from_kron_facs (f :: fs) = Ok (Some M)
    /\ shape M = [torch_prod (rows (f :: fs)); torch_prod (cols (f :: fs))]
    /\ forall o s,
        Forall2 lt o (rows (f :: fs)) -> Forall2 lt s (cols (f :: fs)) ->
        entry M [ravel (rows (f :: fs)) o; ravel (cols (f :: fs)) s]
        = rprod (fac_entries (f :: fs) o s).
Proof.
  intros Hall. rewrite all_tensors_of_order_cons in Hall.
  apply andb_prop in Hall as [Hf Hfs].
  destruct (matrix_from_kron_facs_loop_spec fs f (is_matrix_shape f Hf) Hfs)
    as (M & HM & HsM & HeM).
  exists M. split; [|split].
  - unfold matrix_from_kron_facs. cbn [matrix_from_kron_facs_loop].
    unfold is_matrix. rewrite Hf. exact HM.
  - exact HsM.
  - intros o s Fo Fs.
    inversion Fo as [|a r' o' rs' Ha Fo']; subst.
    inversion Fs as [|b c' s' cs' Hb Fs']; subst.
    rewrite fac_entries_cons. cbn [rprod ravel]. now apply HeM.
Qed.

End KroneckerErrors.

(** The loop of [vp_einsum_equation] draws two letters per factor: it
    ends normally when enough letters are left, and with [StopIteration]
    otherwise. *)
Lemma vp_einsum_equation_loop_exhausted (n : nat) :
  forall (g : letters) (in_str v_str out_str : string),
    gen_i g <= gen_max g ->
    gen_max g < gen_i g + 2 * n ->
    vp_einsum_equation_loop n g in_str v_str out_str = Raise StopIteration.
Proof.
  induction n as [|n IH]; intros g in_str v_str out_str Hle Hlt.
  - lia.
  - cbn [vp_einsum_equation_loop]. unfold next at 1.
    destruct (Nat.ltb_spec (gen_i g) (gen_max g)) as [H1|H1]; [|reflexivity].
    cbn [bind snd]. unfold next at 1. cbn [gen_i gen_max].
    destruct (Nat.ltb_spec (S (gen_i g)) (gen_max g)) as [H2|H2]; [|reflexivity].
    cbn [bind snd fst]. apply IH; cbn [gen_i gen_max]; lia.
Qed.

Lemma vp_einsum_equation_loop_enough (n : nat) :
  forall (g : letters) (in_str v_str out_str : string),
    gen_i g + 2 * n <= gen_max g ->
    exists strs, vp_einsum_equation_loop n g in_str v_str out_str = Ok strs.
Proof.
  induction n as [|n IH]; intros g in_str v_str out_str Hle.
  - eexists. reflexivity.
  - cbn [vp_einsum_equation_loop]. unfold next at 1.
    destruct (Nat.ltb_spec (gen_i g) (gen_max g)) as [H1|H1]; [|lia].
    cbn [bind snd]. unfold next at 1. cbn [gen_i gen_max].
    destruct (Nat.ltb_spec (S (gen_i g)) (gen_max g)) as [H2|H2]; [|lia].
    cbn [bind snd fst]. apply IH. cbn [gen_i gen_max]. lia.
Qed.

Lemma vp_einsum_equation_exhausted (n : nat) :
  14 <= n -> vp_einsum_equation n = Raise StopIteration.
Proof.
  intros Hn. unfold vp_einsum_equation.
  rewrite vp_einsum_equation_loop_exhausted; [reflexivity| |];
    cbn [get_letters get_letters_from gen_i gen_max]; lia.
Qed.

Lemma vp_einsum_equation_enough (n : nat) :
  n <= 13 -> exists equation, vp_einsum_equation n = Ok equation.
Proof.
  intros Hn. unfold vp_einsum_equation.
  destruct (vp_einsum_equation_loop_enough n get_letters
              EmptyString EmptyString EmptyString) as ([[i v] o] & E).
  - cbn [get_letters get_letters_from gen_i gen_max]. lia.
  - rewrite E. eexists. reflexivity.
Qed.

Section FactoredErrors.

Context {R : Type} `{Scalar R}.

Lemma vp_from_kron_facs_not_matrix (fs : list (tensor R)) :
  all_tensors_of_order 2 fs = false ->
  vp_from_kron_facs fs = Raise (AssertionError None).
Proof. intros Hall. unfold vp_from_kron_facs. now rewrite Hall. Qed.

Lemma vp_from_kron_facs_too_many (fs : list (tensor R)) :
  all_tensors_of_order 2 fs = true -> 14 <= length fs ->
  vp_from_kron_facs fs = Raise StopIteration.
Proof.
  intros Hall Hn. unfold vp_from_kron_facs. rewrite Hall. cbn [assert_ bind].
  destruct fs as [|f fs']; [simpl in Hn; lia|].
  rewrite (zip_star_matrices _ _ Hall). cbn [unpack2 bind snd].
  rewrite length_map, vp_einsum_equation_exhausted by assumption.
  reflexivity.
Qed.

Lemma vp_from_kron_facs_supported (fs : list (tensor R)) :
  all_tensors_of_order 2 fs = true -> 1 <= length fs <= 13 ->
  exists vp, vp_from_kron_facs fs = Ok vp.
Proof.
  intros Hall Hn. unfold vp_from_kron_facs. rewrite Hall. cbn [assert_ bind].
  destruct fs as [|f fs']; [simpl in Hn; lia|].
  rewrite (zip_star_matrices _ _ Hall). cbn [unpack2 bind snd].
  rewrite length_map.
  destruct (vp_einsum_equation_enough (n := length (f :: fs'))) as (eq & E);
    [lia|].
  rewrite E. eexists. reflexivity.
Qed.

End FactoredErrors.

Section ConverterShapes.

Context {R : Type} `{Scalar R}.

Lemma reshape_ok (t : tensor R) (new_shape : list nat) :
  torch_prod new_shape = torch_prod (shape t) ->
  reshape t new_shape = Ok {| shape := new_shape; data := data t |}.
Proof.
  intros E. unfold reshape, numel. now rewrite E, Nat.eqb_refl.
Qed.

Lemma new_output_convention_shape (mat : tensor R) (module : torch_module R)
    (N V : nat) (feat : list nat) :
  output_shape module = N :: feat ->
  shape mat = [N; torch_prod feat; V] ->
  exists new_mat : tensor R,
    new_output_convention mat module = Ok new_mat
    /\ shape new_mat = V :: N :: feat.
Proof.
  intros Hout Hs. unfold new_output_convention. rewrite Hout, Hs.
  cbn [getitem nth_error getitem_last rev app tl bind].
  rewrite shape_eqb_refl. cbn [assert_ bind].
  rewrite (einsum_ndv_vnd mat Hs). cbn [bind].
  rewrite reshape_ok by (simpl; lia).
  eexists. split; reflexivity.
Qed.

Lemma new_input_convention_shape (mat : tensor R) (module : torch_module R)
    (N V : nat) (feat : list nat) :
  input0_shape module = N :: feat ->
  shape mat = [N; torch_prod feat; V] ->
  exists new_mat : tensor R,
    new_input_convention mat module = Ok new_mat
    /\ shape new_mat = V :: N :: feat.
Proof.
  intros Hin Hs. unfold new_input_convention. rewrite Hin, Hs.
  cbn [getitem nth_error getitem_last rev app tl bind].
  rewrite shape_eqb_refl. cbn [assert_ bind].
  rewrite (einsum_ndv_vnd mat Hs). cbn [bind].
  rewrite reshape_ok by (simpl; lia).
  eexists. split; reflexivity.
Qed.

Lemma old_input_convention_shape (new_mat : tensor R) (module : torch_module R)
    (N V : nat) (feat : list nat) :
  input0_shape module = N :: feat ->
  shape new_mat = V :: N :: feat ->
  exists old_mat : tensor R,
    old_input_convention new_mat module = Ok old_mat
    /\ shape old_mat = [N; torch_prod feat; V].
Proof.
  intros Hin Hs. unfold old_input_convention. rewrite Hin, Hs.
  cbn [getitem nth_error tl bind app].
  rewrite shape_eqb_refl. cbn [assert_ bind].
  rewrite reshape_ok by (rewrite Hs; simpl; lia). cbn [bind].
  rewrite (einsum_vnc_ncv _ (v := V) (n := N) (c := torch_prod feat))
    by reflexivity.
  eexists. split; reflexivity.
Qed.

Lemma old_output_convention_shape (new_mat : tensor R) (module : torch_module R)
    (N V : nat) (feat : list nat) :
  output_shape module = N :: feat ->
  shape new_mat = V :: N :: feat ->
  exists old_mat : tensor R,
    old_output_convention new_mat module = Ok old_mat
    /\ shape old_mat = [N; torch_prod feat; V].
Proof.
  intros Hout Hs. unfold old_output_convention. rewrite Hout, Hs.
  cbn [getitem nth_error tl bind app].
  rewrite shape_eqb_refl. cbn [assert_ bind].
  rewrite reshape_ok by (rewrite Hs; simpl; lia). cbn [bind].
  rewrite (einsum_vnc_ncv _ (v := V) (n := N) (c := torch_prod feat))
    by reflexivity.
  eexists. split; reflexivity.
Qed.

Lemma remove_V_dim_shape (t : tensor R) (front : list nat) :
  shape t = front ++ [1] -> shape (remove_V_dim t) = front.
Proof.
  intros Hs. unfold remove_V_dim, squeeze_last.
  rewrite Hs, rev_app_distr. cbn [rev app shape]. apply rev_involutive.
Qed.

Lemma einsum_vi_iv (t : tensor R) (v i : nat) :
  shape t = [v; i] ->
  einsum "vi->iv" [t] =
  Ok {| shape := [i; v];
        data := map (fun o => entry t [nth 1 o 0; nth 0 o 0]) (tuples [i; v]) |}.
Proof.
  intros Hs. run_einsum. do 2 f_equal.
  unfold einsum_eval. apply map_ext. intros o. cbn. now rewrite app_nil_r.
Qed.

Lemma einsum_vni_niv (t : tensor R) (v n i : nat) :
  shape t = [v; n; i] ->
  einsum "vni->niv" [t] =
  Ok {| shape := [n; i; v];
        data := map (fun o => entry t [nth 2 o 0; nth 0 o 0; nth 1 o 0])
                    (tuples [n; i; v]) |}.
Proof.
  intros Hs. run_einsum. do 2 f_equal.
  unfold einsum_eval. apply map_ext. intros o. cbn. now rewrite app_nil_r.
Qed.

Lemma old_weight_convention_sum_batch (new_mat : tensor R)
    (module : torch_module R) (V : nat) :
  shape (weight module) <> [] ->
  shape new_mat = V :: shape (weight module) ->
  exists old_mat : tensor R,
    old_weight_convention new_mat module true = Ok old_mat
    /\ shape old_mat = [numel (weight module); V]
    /\ numel old_mat = numel new_mat
    /\ wf old_mat.
Proof.
  intros Hne Hs. unfold old_weight_convention. rewrite Hs.
  destruct (shape (weight module)) as [|w0 ws] eqn:Hw; [congruence|].
  cbn [getitem nth_error bind app]. rewrite shape_eqb_refl. cbn [assert_ bind].
  unfold numel at 1. rewrite Hw.
  rewrite reshape_ok by (rewrite Hs; simpl; lia). cbn [bind].
  rewrite (einsum_vi_iv _ (v := V) (i := torch_prod (w0 :: ws))) by reflexivity.
  eexists. split; [reflexivity|]. cbn [shape]. split; [|split].
  - unfold numel. now rewrite Hw.
  - unfold numel. cbn [shape]. rewrite Hs. simpl. lia.
  - unfold wf. cbn [shape data]. now rewrite length_map, tuples_length.
Qed.

Lemma old_weight_convention_per_sample (new_mat : tensor R)
    (module : torch_module R) (V N : nat) :
  shape new_mat = V :: N :: shape (weight module) ->
  exists old_mat : tensor R,
    old_weight_convention new_mat module false = Ok old_mat
    /\ shape old_mat = [N; numel (weight module); V]
    /\ numel old_mat = numel new_mat
    /\ wf old_mat.
Proof.
  intros Hs. unfold old_weight_convention. rewrite Hs.
  cbn [getitem nth_error bind app]. rewrite shape_eqb_refl. cbn [assert_ bind].
  rewrite reshape_ok by (rewrite Hs; unfold numel; simpl; lia). cbn [bind].
  rewrite (einsum_vni_niv _ (v := V) (n := N) (i := numel (weight module)))
    by reflexivity.
  eexists. split; [reflexivity|]. cbn [shape]. split; [|split].
  - reflexivity.
  - unfold numel. cbn [shape]. rewrite Hs. simpl. lia.
  - unfold wf. cbn [shape data]. now rewrite length_map, tuples_length.
Qed.

Lemma promote_shape (mat : tensor R) (N D V : nat) :
  old_layout mat N D V -> shape (promote mat) = [N; D; V].
Proof.
  unfold promote. intros [[Hs ->]|Hs]; rewrite Hs; cbn [length Nat.eqb].
  - unfold add_V_dim, unsqueeze_last. cbn [shape]. now rewrite Hs.
  - exact Hs.
Qed.

Lemma demote_shape (mat out : tensor R) (N D V : nat) (dims : list nat) :
  old_layout mat N D V -> shape out = dims ++ [V] ->
  shape (demote mat out) = old_layout_result mat dims V.
Proof.
  unfold demote, old_layout_result.
  intros [[Hs ->]|Hs] Ho; rewrite Hs; cbn [length Nat.eqb].
  - now apply remove_V_dim_shape.
  - exact Ho.
Qed.

Section Handlers.

Variables Self Grad : Type.
Variable jmp : @handler R Self Grad.
Variables (self : Self) (module : torch_module R) (g_inp g_out : Grad).
Variables (mat : tensor R) (kw : kwargs).

Lemma jac_t_pipeline :
  jac_t_new_shape_convention jmp self module g_inp g_out mat kw
  = (m <- new_output_convention (promote mat) module ;;
     r <- jmp self module g_inp g_out m kw ;;
     o <- old_input_convention r module ;;
     Ok (demote mat o)).
Proof.
  unfold jac_t_new_shape_convention, promote, demote.
  destruct (length (shape mat) =? 2); reflexivity.
Qed.

Lemma jac_pipeline :
  jac_new_shape_convention jmp self module g_inp g_out mat kw
  = (m <- new_input_convention (promote mat) module ;;
     r <- jmp self module g_inp g_out m kw ;;
     o <- old_output_convention r module ;;
     Ok (demote mat o)).
Proof.
  unfold jac_new_shape_convention, promote, demote.
  destruct (length (shape mat) =? 2); reflexivity.
Qed.

Lemma weight_jac_t_pipeline :
  weight_jac_t_new_shape_convention jmp self module g_inp g_out mat kw
  = (m <- new_output_convention (promote mat) module ;;
     r <- jmp self module g_inp g_out m kw ;;
     o <- old_weight_convention r module (sum_batch_of kw) ;;
     Ok (demote mat o)).
Proof.
  unfold weight_jac_t_new_shape_convention, promote, demote, sum_batch_of,
    kwargs_sum_batch.
  destruct (length (shape mat) =? 2), (kw_sum_batch kw); reflexivity.
Qed.

Variables (N Ni V : nat) (fo fi : list nat).
Hypothesis Hout : output_shape module = N :: fo.
Hypothesis Hin : input0_shape module = Ni :: fi.

Lemma jac_t_wrapper_spec :
  old_layout mat N (torch_prod fo) V ->
  exists m : tensor R,
    new_output_convention (promote mat) module = Ok m
    /\ shape m = V :: N :: fo
    /\ forall r : tensor R,
        jmp self module g_inp g_out m kw = Ok r ->
        shape r = V :: Ni :: fi ->
        exists o : tensor R,
          old_input_convention r module = Ok o
          /\ jac_t_new_shape_convention jmp self module g_inp g_out mat kw
             = Ok (demote mat o)
          /\ shape (demote mat o)
             = old_layout_result mat [Ni; torch_prod fi] V.
Proof.
  intros Hmat.
  destruct (new_output_convention_shape (promote mat) module Hout
              (promote_shape Hmat)) as (m & Hm & Hsm).
  exists m. split; [exact Hm|]. split; [exact Hsm|].
  intros r Hr Hsr.
  destruct (old_input_convention_shape r module Hin Hsr) as (o & Ho & Hso).
  exists o. split; [exact Ho|]. split.
  - rewrite jac_t_pipeline, Hm. cbn [bind]. rewrite Hr. cbn [bind].
    now rewrite Ho.
  - exact (demote_shape o [Ni; torch_prod fi] Hmat Hso).
Qed.

Lemma jac_wrapper_spec :
  old_layout mat Ni (torch_prod fi) V ->
  exists m : tensor R,
    new_input_convention (promote mat) module = Ok m
    /\ shape m = V :: Ni :: fi
    /\ forall r : tensor R,
        jmp self module g_inp g_out m kw = Ok r ->
        shape r = V :: N :: fo ->
        exists o : tensor R,
          old_output_convention r module = Ok o
          /\ jac_new_shape_convention jmp self module g_inp g_out mat kw
             = Ok (demote mat o)
          /\ shape (demote mat o)
             = old_layout_result mat [N; torch_prod fo] V.
Proof.
  intros Hmat.
  destruct (new_input_convention_shape (promote mat) module Hin
              (promote_shape Hmat)) as (m & Hm & Hsm).
  exists m. split; [exact Hm|]. split; [exact Hsm|].
  intros r Hr Hsr.
  destruct (old_output_convention_shape r module Hout Hsr) as (o & Ho & Hso).
  exists o. split; [exact Ho|]. split.
  - rewrite jac_pipeline, Hm. cbn [bind]. rewrite Hr. cbn [bind].
    now rewrite Ho.
  - exact (demote_shape o [N; torch_prod fo] Hmat Hso).
Qed.

Lemma weight_jac_t_wrapper_spec :
  old_layout mat N (torch_prod fo) V ->
  exists m : tensor R,
    new_output_convention (promote mat) module = Ok m
    /\ shape m = V :: N :: fo
    /\ forall r : tensor R,
        jmp self module g_inp g_out m kw = Ok r ->
        (sum_batch_of kw = true ->
         shape (weight module) <> [] ->
         shape r = V :: shape (weight module) ->
         exists o : tensor R,
           old_weight_convention r module true = Ok o
           /\ weight_jac_t_new_shape_convention jmp self module g_inp g_out
                mat kw = Ok (demote mat o)
           /\ shape (demote mat o)
              = old_layout_result mat [numel (weight module)] V)
        /\ (sum_batch_of kw = false ->
            forall Nw : nat,
              shape r = V :: Nw :: shape (weight module) ->
              exists o : tensor R,
                old_weight_convention r module false = Ok o
                /\ weight_jac_t_new_shape_convention jmp self module g_inp
                     g_out mat kw = Ok (demote mat o)
                /\ shape (demote mat o)
                   = old_layout_result mat [Nw; numel (weight module)] V).
Proof.
  intros Hmat.
  destruct (new_output_convention_shape (promote mat) module Hout
              (promote_shape Hmat)) as (m & Hm & Hsm).
  exists m. split; [exact Hm|]. split; [exact Hsm|].
  intros r Hr. split.
  - intros Hsb Hne Hsr.
    destruct (old_weight_convention_sum_batch r module Hne Hsr)
      as (o & Ho & Hso & _).
    exists o. split; [exact Ho|]. split.
    + rewrite weight_jac_t_pipeline, Hm. cbn [bind]. rewrite Hr. cbn [bind].
      now rewrite Hsb, Ho.
    + exact (demote_shape o [numel (weight module)] Hmat Hso).
  - intros Hsb Nw Hsr.
    destruct (old_weight_convention_per_sample r module Hsr)
      as (o & Ho & Hso & _).
    exists o. split; [exact Ho|]. split.
    + rewrite weight_jac_t_pipeline, Hm. cbn [bind]. rewrite Hr. cbn [bind].
      now rewrite Hsb, Ho.
    + exact (demote_shape o [Nw; numel (weight module)] Hmat Hso).
Qed.

End Handlers.

End ConverterShapes.

Section HBPConv2dProps.

Context {R : Type} `{Scalar R}.

Lemma einsum_bijc_bic (t : tensor R) (b i j c : nat) :
  shape t = [b; i; j; c] ->
  exists t' : tensor R,
    einsum "bijc->bic" [t] = Ok t' /\ shape t' = [b; i; c].
Proof.
  intros Hs. run_einsum. eexists. split; reflexivity.
Qed.

Lemma einsum_bic_blc_il (t : tensor R) (b i c : nat) :
  shape t = [b; i; c] ->
  exists t' : tensor R,
    einsum "bic,blc->il" [t; t] = Ok t' /\ shape t' = [i; i].
Proof.
  intros Hs. run_einsum. eexists. split; reflexivity.
Qed.

(** [einsum('bik,bjk->ij', (X, X))]: the sum over the batch and the
    positions of the products of two rows of the unfolded input. *)
Lemma einsum_bik_bjk_ij (X : tensor R) (b i k : nat) :
  shape X = [b; i; k] ->
  einsum "bik,bjk->ij" [X; X] =
  Ok {| shape := [i; i];
        data := map (fun o =>
                       rsum (map (fun s =>
                                    rmul (entry X [nth 0 s 0; nth 0 o 0; nth 1 s 0])
                                         (entry X [nth 0 s 0; nth 1 o 0; nth 1 s 0]))
                                 (tuples [b; k])))
                    (tuples [i; i]) |}.
Proof.
  intros Hs. run_einsum. do 2 f_equal.
  unfold einsum_eval. apply map_ext_in. intros o Ho. f_equal.
  apply map_ext_in. intros s Hs'.
  apply in_tuples in Ho, Hs'. invert_idx Ho. invert_idx Hs'. reflexivity.
Qed.

Variable unfold_func : torch_module R -> tensor R -> result (tensor R).
Variable separate_channels_and_pixels :
  torch_module R -> tensor R -> result (tensor R).

Lemma _factor_from_sqrt_shape (self : hbp_self R) (module : torch_module R)
    (S : tensor R) (b i j c : nat) :
  separate_channels_and_pixels module (mat_from_ctx self) = Ok S ->
  shape S = [b; i; j; c] ->
  exists F : tensor R,
    _factor_from_sqrt separate_channels_and_pixels self module = Ok F
    /\ shape F = [i; i].
Proof.
  intros HS Hs. unfold _factor_from_sqrt. rewrite HS. cbn [bind].
  destruct (einsum_bijc_bic S Hs) as (t1 & E1 & Hs1). rewrite E1. cbn [bind].
  destruct (einsum_bic_blc_il t1 Hs1) as (t2 & E2 & Hs2). rewrite E2.
  exists t2. split; [reflexivity | exact Hs2].
Qed.

Lemma _factors_from_input_no_average (self : hbp_self R)
    (module : torch_module R) (X : tensor R) (B I K : nat) :
  ea_strategy self = NO_AVERAGE ->
  unfold_func module (input0 module) = Ok X ->
  shape X = [B; I; K] ->
  exists G : tensor R,
    _factors_from_input unfold_func self module = Ok [G]
    /\ shape G = [I; I]
    /\ forall p q : nat,
        p < I -> q < I ->
        entry G [p; q]
        = rdiv_int
            (rsum (map (fun s =>
                          rmul (entry X [nth 0 s 0; p; nth 1 s 0])
                               (entry X [nth 0 s 0; q; nth 1 s 0]))
                       (tuples [B; K])))
            B.
Proof.
  intros Hea HX Hs. unfold _factors_from_input.
  rewrite HX. cbn [bind]. rewrite Hs. cbn [getitem nth_error bind].
  rewrite Hea. cbn [should_average_param_jac].
  rewrite (einsum_bik_bjk_ij X Hs). cbn [bind].
  eexists. split; [reflexivity|]. split; [reflexivity|].
  intros p q Hp Hq. unfold entry at 1, div_int. cbn [shape data].
  rewrite map_map.
  rewrite (nth_map_tuples _ (dims := [I; I]) (idx := [p; q]))
    by (repeat constructor; assumption).
  reflexivity.
Qed.

Lemma HBPConv2d_weight_sqrt (self : hbp_self R) (module : torch_module R) :
  bp_strategy self = SQRT ->
  HBPConv2d_weight unfold_func separate_channels_and_pixels self module
  = (f <- _factor_from_sqrt separate_channels_and_pixels self module ;;
     factors <- _factors_from_input unfold_func self module ;;
     Ok (Some (f :: factors))).
Proof.
  intros Hbp. unfold HBPConv2d_weight, _weight_for_sqrt. rewrite Hbp.
  cbn [is_batch_average is_sqrt].
  destruct (_factor_from_sqrt _ self module) as [f|e]; [|reflexivity].
  cbn [bind].
  destruct (_factors_from_input _ self module) as [factors|e]; [|reflexivity].
  cbn [bind]. do 2 f_equal.
  assert (E : forall acc : list (tensor R),
             fold_left (fun a x => a ++ [x]) factors acc = acc ++ factors).
  { induction factors as [|x l IH]; intros acc; simpl.
    - now rewrite app_nil_r.
    - rewrite IH, <- app_assoc. reflexivity. }
  apply E.
Qed.

Lemma HBPConv2d_bias_sqrt (self : hbp_self R) (module : torch_module R) :
  bp_strategy self = SQRT ->
  HBPConv2d_bias separate_channels_and_pixels self module
  = (f <- _factor_from_sqrt separate_channels_and_pixels self module ;;
     Ok (Some [f])).
Proof.
  intros Hbp. unfold HBPConv2d_bias, _bias_for_sqrt. rewrite Hbp.
  cbn [is_batch_average is_sqrt].
  destruct (_factor_from_sqrt _ self module); reflexivity.
Qed.



End HBPConv2dProps.

Section KroneckerClaims.

Context {R : Type} `{Scalar R}.

(** C6 (amended).  [matrix_from_kron_facs] returns [None], without raising,
    when the factor list is empty; it fails (with the [AssertionError] of
    the failed [is_matrix] check) when some factor is not a rank-2 tensor;
    for a non-empty list of rank-2 factors it returns the repeated
    pairwise Kronecker product: a matrix of shape (product of the factor
    row counts, product of the factor column counts) whose entry at the
    row offset of [o] and the column offset of [s] is the product of the
    factor entries at [(o[k], s[k])]. *)
Theorem matrix_from_kron_facs_spec (factors : list (tensor R)) :
  (factors = [] -> matrix_from_kron_facs factors = Ok None)
  /\ (all_tensors_of_order 2 factors = false ->
      matrix_from_kron_facs factors = Raise (AssertionError None))
  /\ (factors <> [] ->
      all_tensors_of_order 2 factors = true ->
      exists M : tensor R,
        matrix_from_kron_facs factors = Ok (Some M)
        /\ shape M = [torch_prod (rows factors); torch_prod (cols factors)]
        /\ forall o s : list nat,
            Forall2 lt o (rows factors) -> Forall2 lt s (cols factors) ->
            entry M [ravel (rows factors) o; ravel (cols factors) s]
            = rprod (fac_entries factors o s)).
Proof.
  split; [|split].
  - intros ->. reflexivity.
  - apply matrix_from_kron_facs_not_matrix.
  - intros Hne Hall. destruct factors as [|f fs]; [congruence|].
    now apply matrix_from_kron_facs_matrices.
Qed.

(** C7 (amended).  [vp_from_kron_facs] checks
    [all_tensors_of_order(2, factors)] before anything else: whenever some
    factor is not a rank-2 tensor the call fails at that check, whatever
    the number and the shapes of the factors, with a bare
    [AssertionError] that carries no message and so does not identify the
    offending factor. *)
Theorem vp_from_kron_facs_precondition (factors : list (tensor R))
    (f : tensor R) :
  In f factors ->
  is_tensor_of_order 2 f = false ->
  vp_from_kron_facs factors = Raise (AssertionError None).
Proof.
  intros Hin Hf. apply vp_from_kron_facs_not_matrix.
  apply all_tensors_of_order_false. now exists f.
Qed.

(** C10.  [vp_from_kron_facs] supports at most 13 factors: with 14 or more
    factors the call fails instead of returning a product function, and
    when all factors are rank-2 tensors the failure is the
    [StopIteration] of the exhausted letter generator; with 1 to 13
    rank-2 factors it returns a product function. *)
Theorem vp_from_kron_facs_at_most_13 (factors : list (tensor R)) :
  (14 <= length factors ->
   exists e : exn,
     vp_from_kron_facs factors = Raise e
     /\ (all_tensors_of_order 2 factors = true -> e = StopIteration))
  /\ (1 <= length factors <= 13 ->
      all_tensors_of_order 2 factors = true ->
      exists vp, vp_from_kron_facs factors = Ok vp).
Proof.
  split.
  - intros Hn. destruct (all_tensors_of_order 2 factors) eqn:Hall.
    + exists StopIteration. split; [|reflexivity].
      now apply vp_from_kron_facs_too_many.
    + exists (AssertionError None). split; [|discriminate].
      now apply vp_from_kron_facs_not_matrix.
  - intros Hn Hall. now apply vp_from_kron_facs_supported.
Qed.

End KroneckerClaims.

Section FactoredClaim.

Context {R : Type} `{ScalarLaws R}.


End FactoredClaim.

Section ConverterClaims.

Context {R : Type} `{Scalar R}.

(** C8 (amended).  For a layer whose weight has shape [param_shape] with
    [param_numel] entries: [old_weight_convention] with [sum_batch] true
    maps an input of shape [[V, *param_shape]] to an output of shape
    [[param_numel, V]] (no batch axis) provided the weight has at least
    one axis, and with [sum_batch] false it maps an input of shape
    [[V, N, *param_shape]] to an output of shape [[N, param_numel, V]];
    in both cases the number of entries is unchanged. *)
Theorem old_weight_convention_shapes (new_mat : tensor R)
    (module : torch_module R) (V N : nat) :
  (shape (weight module) <> [] ->
   shape new_mat = V :: shape (weight module) ->
   exists old_mat : tensor R,
     old_weight_convention new_mat module true = Ok old_mat
     /\ shape old_mat = [numel (weight module); V]
     /\ numel old_mat = numel new_mat
     /\ wf old_mat)
  /\ (shape new_mat = V :: N :: shape (weight module) ->
      exists old_mat : tensor R,
        old_weight_convention new_mat module false = Ok old_mat
        /\ shape old_mat = [N; numel (weight module); V]
        /\ numel old_mat = numel new_mat
        /\ wf old_mat).
Proof.
  split.
  - apply old_weight_convention_sum_batch.
  - apply old_weight_convention_per_sample.
Qed.

(** C9 (amended).  Each of the three wrappers promotes a rank-2 input with
    [add_V_dim] to a stack with [V = 1], converts it from the old to the
    new layout, invokes the wrapped handler on the converted tensor,
    converts the handler's output back to the old layout and, for a
    rank-2 input, applies [remove_V_dim]; a rank-3 input goes through the
    same conversions without promotion or demotion.  When the handler
    keeps [V], a rank-2 input yields a rank-2 output for the
    transposed-Jacobian and the forward-Jacobian wrapper and for the
    parameter-Jacobian wrapper with [sum_batch] false, and a rank-1 output
    [[param_numel]] for the parameter-Jacobian wrapper with [sum_batch]
    true or absent; a rank-3 input yields that shape followed by [V]. *)
Theorem wrappers_use_new_convention (Self Grad : Type)
    (jmp : @handler R Self Grad) (self : Self) (module : torch_module R)
    (g_inp g_out : Grad) (mat : tensor R) (kw : kwargs)
    (N Ni V : nat) (fo fi : list nat) :
  output_shape module = N :: fo ->
  input0_shape module = Ni :: fi ->
  (* the order of the steps *)
  (jac_t_new_shape_convention jmp self module g_inp g_out mat kw
   = (m <- new_output_convention (promote mat) module ;;
      r <- jmp self module g_inp g_out m kw ;;
      o <- old_input_convention r module ;;
      Ok (demote mat o)))
  /\ (weight_jac_t_new_shape_convention jmp self module g_inp g_out mat kw
      = (m <- new_output_convention (promote mat) module ;;
         r <- jmp self module g_inp g_out m kw ;;
         o <- old_weight_convention r module (sum_batch_of kw) ;;
         Ok (demote mat o)))
  /\ (jac_new_shape_convention jmp self module g_inp g_out mat kw
      = (m <- new_input_convention (promote mat) module ;;
         r <- jmp self module g_inp g_out m kw ;;
         o <- old_output_convention r module ;;
         Ok (demote mat o)))
  (* transposed Jacobian *)
  /\ (old_layout mat N (torch_prod fo) V ->
      exists m : tensor R,
        new_output_convention (promote mat) module = Ok m
        /\ shape m = V :: N :: fo
        /\ forall r : tensor R,
            jmp self module g_inp g_out m kw = Ok r ->
            shape r = V :: Ni :: fi ->
            exists o : tensor R,
              old_input_convention r module = Ok o
              /\ jac_t_new_shape_convention jmp self module g_inp g_out mat kw
                 = Ok (demote mat o)
              /\ shape (demote mat o)
                 = old_layout_result mat [Ni; torch_prod fi] V)
  (* parameter Jacobian *)
  /\ (old_layout mat N (torch_prod fo) V ->
      exists m : tensor R,
        new_output_convention (promote mat) module = Ok m
        /\ shape m = V :: N :: fo
        /\ forall r : tensor R,
            jmp self module g_inp g_out m kw = Ok r ->
            (sum_batch_of kw = true ->
             shape (weight module) <> [] ->
             shape r = V :: shape (weight module) ->
             exists o : tensor R,
               old_weight_convention r module true = Ok o
               /\ weight_jac_t_new_shape_convention jmp self module g_inp
                    g_out mat kw = Ok (demote mat o)
               /\ shape (demote mat o)
                  = old_layout_result mat [numel (weight module)] V)
            /\ (sum_batch_of kw = false ->
                forall Nw : nat,
                  shape r = V :: Nw :: shape (weight module) ->
                  exists o : tensor R,
                    old_weight_convention r module false = Ok o
                    /\ weight_jac_t_new_shape_convention jmp self module
                         g_inp g_out mat kw = Ok (demote mat o)
                    /\ shape (demote mat o)
                       = old_layout_result mat
                           [Nw; numel (weight module)] V))
  (* forward Jacobian *)
  /\ (old_layout mat Ni (torch_prod fi) V ->
      exists m : tensor R,
        new_input_convention (promote mat) module = Ok m
        /\ shape m = V :: Ni :: fi
        /\ forall r : tensor R,
            jmp self module g_inp g_out m kw = Ok r ->
            shape r = V :: N :: fo ->
            exists o : tensor R,
              old_output_convention r module = Ok o
              /\ jac_new_shape_convention jmp self module g_inp g_out mat kw
                 = Ok (demote mat o)
              /\ shape (demote mat o)
                 = old_layout_result mat [N; torch_prod fo] V).
Proof.
  intros Hout Hin.
  split; [apply jac_t_pipeline|].
  split; [apply weight_jac_t_pipeline|].
  split; [apply jac_pipeline|].
  split; [|split].
  - intros Hmat. eapply jac_t_wrapper_spec; eassumption.
  - intros Hmat. eapply weight_jac_t_wrapper_spec; eassumption.
  - intros Hmat. eapply jac_wrapper_spec; eassumption.
Qed.

End ConverterClaims.

(* ================================================================== *)
(** * The properties at concrete inputs *)
(* ================================================================== *)

(** The model run on small inputs. *)

Example vp_einsum_equation_two_factors :
  vp_einsum_equation 2 = Ok "bd,ab,cd->ac"%string.
Proof. reflexivity. Qed.

Example vp_einsum_equation_fourteen_factors :
  vp_einsum_equation 14 = Raise StopIteration.
Proof. reflexivity. Qed.

Example matrix_from_kron_facs_two_factors :
  matrix_from_kron_facs [ex_A; ex_B]
  = Ok (Some (ex_tensor [4; 6]
                [1; 10; 100; 2; 20; 200;
                 1000; 10000; 100000; 2000; 20000; 200000;
                 3; 30; 300; 4; 40; 400;
                 3000; 30000; 300000; 4000; 40000; 400000]%Z)).
Proof. vm_compute. reflexivity. Qed.

Example multiply_vec_with_kron_facs_two_factors :
  multiply_vec_with_kron_facs [ex_A; ex_B] ex_v
  = Ok (ex_tensor [4] [1629; 1629000; 3579; 3579000]%Z).
Proof. vm_compute. reflexivity. Qed.

Example multiply_vec_with_kron_facs_no_factor :
  multiply_vec_with_kron_facs [] ex_one = Raise ValueError.
Proof. reflexivity. Qed.

Example new_output_convention_example :
  new_output_convention ex_mat ex_module
  = Ok (ex_tensor [2; 2; 3; 1]
          [1; 3; 5; 7; 9; 11; 2; 4; 6; 8; 10; 12]%Z).
Proof. vm_compute. reflexivity. Qed.

Example old_weight_convention_example :
  old_weight_convention ex_mat ex_module true
  = Ok (ex_tensor [6; 2] [1; 7; 2; 8; 3; 9; 4; 10; 5; 11; 6; 12]%Z).
Proof. vm_compute. reflexivity. Qed.

#[export] Instance ScalarLaws_Z : @ScalarLaws Z Scalar_Z.
Proof.
  constructor.
  constructor; intros; cbv [rzero rone radd rmul Scalar_Z]; ring.
Qed.

Lemma output_convention_round_trip_witness :
  output_shape ex_module = 2 :: [3; 1]
  /\ shape ex_mat = [2; torch_prod [3; 1]; 2]
  /\ wf ex_mat
  /\ (new_mat <- new_output_convention ex_mat ex_module ;;
      old_output_convention new_mat ex_module) = Ok ex_mat.
Proof.
  split; [reflexivity|]. split; [reflexivity|]. split; [reflexivity|].
  apply (@output_convention_round_trip Z _ ex_mat ex_module 2 2 [3; 1]);
    reflexivity.
Defined.

Lemma matrix_from_two_kron_facs_entries_witness :
  shape ex_A = [2; 2]
  /\ shape ex_B = [2; 3]
  /\ exists M : tensor Z,
      matrix_from_two_kron_facs ex_A ex_B = Ok M
      /\ shape M = [4; 6]
      /\ entry M [1 * 2 + 0; 1 * 3 + 2] = (4 * 100)%Z.
Proof.
  split; [reflexivity|]. split; [reflexivity|].
  destruct (@matrix_from_two_kron_facs_entries Z _ ex_A ex_B 2 2 2 3
              eq_refl eq_refl) as (M & HM & Hs & _ & He).
  exists M. split; [exact HM|]. split; [exact Hs|].
  apply (He 1 0 1 2); repeat constructor.
Defined.






Lemma matrix_from_kron_facs_spec_witness :
  matrix_from_kron_facs (@nil (tensor Z)) = Ok None
  /\ all_tensors_of_order 2 [ex_A; ex_vector] = false
  /\ matrix_from_kron_facs [ex_A; ex_vector] = Raise (AssertionError None)
  /\ [ex_A; ex_B] <> []
  /\ all_tensors_of_order 2 [ex_A; ex_B] = true
  /\ exists M : tensor Z,
      matrix_from_kron_facs [ex_A; ex_B] = Ok (Some M)
      /\ shape M = [4; 6].
Proof.
  split; [exact (proj1 (@matrix_from_kron_facs_spec Z _ []) eq_refl)|].
  split; [reflexivity|].
  split; [exact (proj1 (proj2 (@matrix_from_kron_facs_spec Z _
                                 [ex_A; ex_vector])) eq_refl)|].
  assert (Hne : [ex_A; ex_B] <> []) by discriminate.
  split; [exact Hne|]. split; [reflexivity|].
  destruct (proj2 (proj2 (@matrix_from_kron_facs_spec Z _ [ex_A; ex_B]))
              Hne eq_refl) as (M & HM & Hs & _).
  exists M. split; [exact HM | exact Hs].
Defined.

(** On the empty list [matrix_from_kron_facs] returns [None]: it does not
    raise. *)
Lemma matrix_from_kron_facs_empty_returns :
  ~ exists e : exn, matrix_from_kron_facs (@nil (tensor Z)) = Raise e.
Proof. intros (e & He). discriminate He. Qed.

Lemma vp_from_kron_facs_precondition_witness :
  In ex_vector [ex_A; ex_vector]
  /\ is_tensor_of_order 2 ex_vector = false
  /\ vp_from_kron_facs [ex_A; ex_vector] = Raise (AssertionError None).
Proof.
  assert (Hin : In ex_vector [ex_A; ex_vector]) by (right; left; reflexivity).
  split; [exact Hin|]. split; [reflexivity|].
  exact (@vp_from_kron_facs_precondition Z _ [ex_A; ex_vector] ex_vector
           Hin eq_refl).
Defined.

(** The error of the failed precondition is the same whether the factor
    that is not a matrix comes first or second: no index can be read off
    it. *)
Lemma vp_from_kron_facs_error_is_anonymous :
  ~ exists index_named : exn -> nat,
      forall (factors : list (tensor Z)) (e : exn),
        all_tensors_of_order 2 factors = false ->
        vp_from_kron_facs factors = Raise e ->
        exists f : tensor Z,
          nth_error factors (index_named e) = Some f
          /\ is_tensor_of_order 2 f = false.
Proof.
  intros (index_named & Hnamed).
  destruct (Hnamed [ex_vector; ex_A] (AssertionError None) eq_refl eq_refl)
    as (f1 & H1 & Hf1).
  destruct (Hnamed [ex_A; ex_vector] (AssertionError None) eq_refl eq_refl)
    as (f2 & H2 & Hf2).
  destruct (index_named (AssertionError None)) as [|[|k]]; cbn in H1, H2.
  - injection H2 as <-. discriminate Hf2.
  - injection H1 as <-. discriminate Hf1.
  - destruct k; discriminate H1.
Qed.

Lemma old_weight_convention_shapes_witness :
  shape (weight ex_module) <> []
  /\ shape ex_mat = 2 :: shape (weight ex_module)
  /\ (exists old_mat : tensor Z,
         old_weight_convention ex_mat ex_module true = Ok old_mat
         /\ shape old_mat = [6; 2])
  /\ shape (ex_tensor [2; 1; 3; 2] (data ex_mat))
     = 2 :: 1 :: shape (weight ex_module)
  /\ exists old_mat : tensor Z,
      old_weight_convention (ex_tensor [2; 1; 3; 2] (data ex_mat))
        ex_module false = Ok old_mat
      /\ shape old_mat = [1; 6; 2].
Proof.
  assert (Hne : shape (weight ex_module) <> []) by discriminate.
  split; [exact Hne|]. split; [reflexivity|]. split.
  - destruct (proj1 (@old_weight_convention_shapes Z _ ex_mat ex_module 2 0)
                Hne eq_refl) as (o & Ho & Hs & _).
    exists o. split; [exact Ho | exact Hs].
  - split; [reflexivity|].
    destruct (proj2 (@old_weight_convention_shapes Z _
                       (ex_tensor [2; 1; 3; 2] (data ex_mat)) ex_module 2 1)
                eq_refl) as (o & Ho & Hs & _).
    exists o. split; [exact Ho | exact Hs].
Defined.

(** With [sum_batch] true and a weight of rank 0 the input [[V]] has no
    second axis, and reading [new_mat.shape[1]] raises [IndexError]. *)
Lemma old_weight_convention_scalar_weight :
  shape ex_vector = 2 :: shape (weight ex_module_scalar_weight)
  /\ old_weight_convention ex_vector ex_module_scalar_weight true
     = Raise IndexError.
Proof. split; reflexivity. Qed.

Lemma wrappers_use_new_convention_witness :
  output_shape ex_module_same = 2 :: [3]
  /\ input0_shape ex_module_same = 2 :: [3]
  /\ old_layout ex_mat2 2 (torch_prod [3]) 1
  /\ exists out : tensor Z,
      jac_t_new_shape_convention ex_identity_handler tt ex_module_same tt tt
        ex_mat2 ex_no_kwargs = Ok out
      /\ shape out = [2; 3].
Proof.
  assert (Hl : old_layout ex_mat2 2 (torch_prod [3]) 1)
    by (left; split; reflexivity).
  split; [reflexivity|]. split; [reflexivity|]. split; [exact Hl|].
  destruct (proj1 (proj2 (proj2 (proj2
              (@wrappers_use_new_convention Z _ unit unit
                 ex_identity_handler tt ex_module_same tt tt ex_mat2
                 ex_no_kwargs 2 2 1 [3] [3] eq_refl eq_refl)))) Hl)
    as (m & Hm & Hsm & Hr).
  destruct (Hr m eq_refl Hsm) as (o & _ & Hw & Hso).
  exists (demote ex_mat2 o). split; [exact Hw | exact Hso].
Defined.

(** The parameter-Jacobian wrapper called without [sum_batch] on a rank-2
    input returns a rank-1 tensor. *)
Lemma weight_wrapper_returns_rank_1 :
  length (shape ex_mat2) = 2
  /\ sum_batch_of ex_no_kwargs = true
  /\ exists out : tensor Z,
      weight_jac_t_new_shape_convention ex_weight_handler tt ex_module_same
        tt tt ex_mat2 ex_no_kwargs = Ok out
      /\ shape out = [6]
      /\ length (shape out) = 1.
Proof.
  split; [reflexivity|]. split; [reflexivity|].
  eexists. split; [vm_compute; reflexivity|]. split; reflexivity.
Qed.

Lemma vp_from_kron_facs_at_most_13_witness :
  14 <= length (repeat ex_unit 14)
  /\ all_tensors_of_order 2 (repeat ex_unit 14) = true
  /\ vp_from_kron_facs (repeat ex_unit 14) = Raise StopIteration
  /\ 1 <= length (repeat ex_unit 13) <= 13
  /\ all_tensors_of_order 2 (repeat ex_unit 13) = true
  /\ exists vp, vp_from_kron_facs (repeat ex_unit 13) = Ok vp.
Proof.
  assert (H14 : 14 <= length (repeat ex_unit 14)) by apply le_n.
  assert (H13 : 1 <= length (repeat ex_unit 13) <= 13)
    by (split; repeat constructor).
  split; [exact H14|]. split; [reflexivity|]. split.
  - destruct (proj1 (@vp_from_kron_facs_at_most_13 Z _ (repeat ex_unit 14))
                H14) as (e & He & Hstop).
    rewrite He. f_equal. exact (Hstop eq_refl).
  - split; [exact H13|]. split; [reflexivity|].
    exact (proj2 (@vp_from_kron_facs_at_most_13 Z _ (repeat ex_unit 13))
             H13 eq_refl).
Defined.

(* ================================================================== *)
(** * Further properties of the converter, the Kronecker algebra and the
      handlers *)
(* ================================================================== *)

Lemma shape_eqb_eq (s1 s2 : list nat) : shape_eqb s1 s2 = true -> s1 = s2.
Proof.
  unfold shape_eqb. destruct (list_eq_dec Nat.eq_dec s1 s2); congruence.
Qed.


Section ConverterExtras.

Context {R : Type} `{Scalar R}.

(** Moving the [V] axis to the end and back to the front is the identity
    on the entries. *)
Lemma vnc_ncv_ndv_vnd (l : list R) (v n c : nat) :
  length l = torch_prod [v; n; c] ->
  map (fun o =>
         entry {| shape := [n; c; v];
                  data := map (fun o' => entry {| shape := [v; n; c]; data := l |}
                                           [nth 2 o' 0; nth 0 o' 0; nth 1 o' 0])
                              (tuples [n; c; v]) |}
               [nth 1 o 0; nth 2 o 0; nth 0 o 0])
      (tuples [v; n; c]) = l.
Proof.
  intros Hlen.
  transitivity (map (fun idx => nth (ravel [v; n; c] idx) l rzero)
                    (tuples [v; n; c]));
    [|now apply map_nth_ravel_tuples].
  apply map_ext_in. intros o Ho.
  apply in_tuples in Ho. invert_idx Ho.
  unfold entry at 1. cbn [shape data nth].
  rewrite (nth_map_tuples _ (dims := [n; c; v]) (idx := [i0; i1; i]))
    by (repeat constructor; assumption).
  reflexivity.
Qed.

(** X1.  On the input side too the conversion to the new layout and back
    is the identity: for a layer with input shape [[N, *featureDims]] and
    a tensor [mat] of shape [[N, prod(featureDims), V]],
    [old_input_convention(new_input_convention(mat, module), module)]
    returns [mat]. *)
Theorem input_convention_round_trip
    (mat : tensor R) (module : torch_module R) (N V : nat)
    (featureDims : list nat) :
  input0_shape module = N :: featureDims ->
  shape mat = [N; torch_prod featureDims; V] ->
  wf mat ->
  (new_mat <- new_input_convention mat module ;;
   old_input_convention new_mat module) = Ok mat.
Proof.
  intros Hin Hshape Hwf.
  unfold new_input_convention. rewrite Hin, Hshape.
  cbn [getitem nth_error getitem_last rev app tl bind].
  rewrite shape_eqb_refl. cbn [assert_ bind].
  rewrite (einsum_ndv_vnd mat Hshape). cbn [bind].
  rewrite reshape_ok by (simpl; lia). cbn [bind].
  unfold old_input_convention. rewrite Hin.
  cbn [getitem nth_error tl bind shape app].
  rewrite shape_eqb_refl. cbn [assert_ bind].
  rewrite reshape_ok by (simpl; lia). cbn [bind].
  rewrite (einsum_vnc_ncv _ (v := V) (n := N) (c := torch_prod featureDims))
    by reflexivity.
  f_equal. destruct mat as [s l]. cbn [shape data] in *. subst s. f_equal.
  unfold entry at 2. cbn [shape data].
  apply ndv_vnd_vnc_ncv. exact Hwf.
Qed.

Lemma new_old_round_trip_data (t : tensor R) (N V : nat) (feat : list nat) :
  shape t = V :: N :: feat ->
  wf t ->
  {| shape := V :: N :: feat;
     data := map (fun o =>
                    entry {| shape := [N; torch_prod feat; V];
                             data := map (fun o' =>
                                            entry {| shape := [V; N; torch_prod feat];
                                                     data := data t |}
                                                  [nth 2 o' 0; nth 0 o' 0; nth 1 o' 0])
                                         (tuples [N; torch_prod feat; V]) |}
                          [nth 1 o 0; nth 2 o 0; nth 0 o 0])
                 (tuples [V; N; torch_prod feat]) |} = t.
Proof.
  intros Hs Hwf. destruct t as [s l]. cbn [shape data] in *. subst s.
  f_equal. apply vnc_ncv_ndv_vnd. rewrite Hwf. simpl. lia.
Qed.

(** X2.  The round trip also holds starting from the new layout: for a
    tensor [t] of shape [[V, N, *feat]], converting to the old layout and
    back returns [t], on the output side and on the input side. *)
Theorem convention_round_trip_from_new
    (t : tensor R) (module : torch_module R) (N V : nat) (feat : list nat) :
  shape t = V :: N :: feat ->
  wf t ->
  (output_shape module = N :: feat ->
   (old_mat <- old_output_convention t module ;;
    new_output_convention old_mat module) = Ok t)
  /\ (input0_shape module = N :: feat ->
      (old_mat <- old_input_convention t module ;;
       new_input_convention old_mat module) = Ok t).
Proof.
  intros Hs Hwf. split; intros Hm.
  - unfold old_output_convention. rewrite Hm, Hs.
    cbn [getitem nth_error tl bind app].
    rewrite shape_eqb_refl. cbn [assert_ bind].
    rewrite reshape_ok by (rewrite Hs; simpl; lia). cbn [bind].
    rewrite (einsum_vnc_ncv _ (v := V) (n := N) (c := torch_prod feat))
      by reflexivity.
    cbn [bind]. unfold new_output_convention. rewrite Hm.
    cbn [shape getitem nth_error getitem_last rev app tl bind].
    rewrite shape_eqb_refl. cbn [assert_ bind].
    rewrite (einsum_ndv_vnd _ (n := N) (d := torch_prod feat) (v := V))
      by reflexivity.
    cbn [bind]. rewrite reshape_ok by (simpl; lia). f_equal.
    unfold entry at 2. cbn [shape data].
    now apply new_old_round_trip_data.
  - unfold old_input_convention. rewrite Hm, Hs.
    cbn [getitem nth_error tl bind app].
    rewrite shape_eqb_refl. cbn [assert_ bind].
    rewrite reshape_ok by (rewrite Hs; simpl; lia). cbn [bind].
    rewrite (einsum_vnc_ncv _ (v := V) (n := N) (c := torch_prod feat))
      by reflexivity.
    cbn [bind]. unfold new_input_convention. rewrite Hm.
    cbn [shape getitem nth_error getitem_last rev app tl bind].
    rewrite shape_eqb_refl. cbn [assert_ bind].
    rewrite (einsum_ndv_vnd _ (n := N) (d := torch_prod feat) (v := V))
      by reflexivity.
    cbn [bind]. rewrite reshape_ok by (simpl; lia). f_equal.
    unfold entry at 2. cbn [shape data].
    now apply new_old_round_trip_data.
Qed.

End ConverterExtras.

Section ConverterEntries.

Context {R : Type} `{Scalar R}.

(** X3.  [new_output_convention] moves entries without reordering the
    feature block: the result has shape [[V, N, *feat]], as many entries
    as its shape says, and its entry at [(v, n, idx)] is the entry of the
    input at [(n, offset of idx in the feature block, v)]. *)
Theorem new_output_convention_entries
    (mat : tensor R) (module : torch_module R) (N V : nat) (feat : list nat) :
  output_shape module = N :: feat ->
  shape mat = [N; torch_prod feat; V] ->
  exists new_mat : tensor R,
    new_output_convention mat module = Ok new_mat
    /\ shape new_mat = V :: N :: feat
    /\ wf new_mat
    /\ forall (v n : nat) (idx : list nat),
        v < V -> n < N -> Forall2 lt idx feat ->
        entry new_mat (v :: n :: idx) = entry mat [n; ravel feat idx; v].
Proof.
  intros Hout Hs. unfold new_output_convention. rewrite Hout, Hs.
  cbn [getitem nth_error getitem_last rev app tl bind].
  rewrite shape_eqb_refl. cbn [assert_ bind].
  rewrite (einsum_ndv_vnd mat Hs). cbn [bind].
  rewrite reshape_ok by (simpl; lia).
  eexists. split; [reflexivity|]. split; [reflexivity|]. split.
  - unfold wf. cbn [shape data]. rewrite length_map, tuples_length.
    simpl. lia.
  - intros v n idx Hv Hn Hidx. unfold entry at 1. cbn [shape data].
    pose proof (ravel_lt Hidx) as Hr.
    replace (ravel (V :: N :: feat) (v :: n :: idx))
      with (ravel [V; N; torch_prod feat] [v; n; ravel feat idx])
      by (simpl; lia).
    rewrite nth_map_tuples by (repeat constructor; assumption).
    reflexivity.
Qed.

(** X4.  [old_weight_convention] moves [V] to the last axis and flattens
    the weight axes: with [sum_batch] the entry at [(offset of idx, v)]
    is the input entry at [(v, idx)]; without, the entry at
    [(n, offset of idx, v)] is the input entry at [(v, n, idx)]. *)
Theorem old_weight_convention_entries
    (new_mat : tensor R) (module : torch_module R) (V N : nat) :
  (shape (weight module) <> [] ->
   shape new_mat = V :: shape (weight module) ->
   exists old_mat : tensor R,
     old_weight_convention new_mat module true = Ok old_mat
     /\ forall (v : nat) (idx : list nat),
         v < V -> Forall2 lt idx (shape (weight module)) ->
         entry old_mat [ravel (shape (weight module)) idx; v]
         = entry new_mat (v :: idx))
  /\ (shape new_mat = V :: N :: shape (weight module) ->
      exists old_mat : tensor R,
        old_weight_convention new_mat module false = Ok old_mat
        /\ forall (v n : nat) (idx : list nat),
            v < V -> n < N -> Forall2 lt idx (shape (weight module)) ->
            entry old_mat [n; ravel (shape (weight module)) idx; v]
            = entry new_mat (v :: n :: idx)).
Proof.
  split.
  - intros Hne Hs. unfold old_weight_convention. rewrite Hs.
    destruct (shape (weight module)) as [|w0 ws] eqn:Hw; [congruence|].
    cbn [getitem nth_error bind app]. rewrite shape_eqb_refl.
    cbn [assert_ bind]. unfold numel at 1. rewrite Hw.
    rewrite reshape_ok by (rewrite Hs; simpl; lia). cbn [bind].
    rewrite (einsum_vi_iv _ (v := V) (i := torch_prod (w0 :: ws)))
      by reflexivity.
    eexists. split; [reflexivity|].
    intros v idx Hv Hidx. unfold entry at 1. cbn [shape data].
    pose proof (ravel_lt Hidx) as Hr.
    rewrite nth_map_tuples by (repeat constructor; assumption).
    unfold entry. cbn [shape data nth]. rewrite Hs. f_equal. simpl. lia.
  - intros Hs. unfold old_weight_convention. rewrite Hs.
    cbn [getitem nth_error bind app]. rewrite shape_eqb_refl.
    cbn [assert_ bind].
    rewrite reshape_ok by (rewrite Hs; unfold numel; simpl; lia). cbn [bind].
    rewrite (einsum_vni_niv _ (v := V) (n := N) (i := numel (weight module)))
      by reflexivity.
    eexists. split; [reflexivity|].
    intros v n idx Hv Hn Hidx. unfold entry at 1. cbn [shape data].
    pose proof (ravel_lt Hidx) as Hr.
    rewrite nth_map_tuples by (repeat constructor; assumption).
    unfold entry. cbn [shape data nth]. rewrite Hs. f_equal.
    unfold numel. simpl. lia.
Qed.

(** X5.  [new_output_convention] returns a tensor exactly when the layer
    has an output shape [[N, *feat]] and the input has shape
    [[N, prod(feat), V]]; it raises [IndexError] exactly when the output
    shape or the input shape is empty, and its only other error is the
    [AssertionError] of the shape check: the einsum and the reshape
    behind the check never fail. *)
Theorem new_output_convention_outcome (mat : tensor R) (module : torch_module R) :
  ((exists new_mat, new_output_convention mat module = Ok new_mat)
   <-> exists (N V : nat) (feat : list nat),
        output_shape module = N :: feat
        /\ shape mat = [N; torch_prod feat; V])
  /\ (new_output_convention mat module = Raise IndexError
      <-> output_shape module = [] \/ shape mat = [])
  /\ forall e : exn,
      new_output_convention mat module = Raise e ->
      e = IndexError \/ e = AssertionError None.
Proof.
  unfold new_output_convention.
  destruct (output_shape module) as [|N feat] eqn:Hout.
  { cbn. split; [|split].
    - split; [intros (x & Hx); discriminate|].
      intros (N & V & feat & Hc & _). discriminate.
    - split; auto.
    - intros e He. injection He as <-. now left. }
  cbn [getitem nth_error bind tl].
  unfold getitem_last.
  destruct (rev (shape mat)) as [|V front] eqn:Hrev.
  { assert (Hs : shape mat = []).
    { rewrite <- (rev_involutive (shape mat)), Hrev. reflexivity. }
    cbn. split; [|split].
    - split; [intros (x & Hx); discriminate|].
      intros (N' & V & feat' & _ & Hc). rewrite Hs in Hc. discriminate.
    - split; auto.
    - intros e He. injection He as <-. now left. }
  assert (Hne : shape mat <> []).
  { intros Hs. rewrite Hs in Hrev. discriminate. }
  cbn [bind].
  destruct (shape_eqb (shape mat) [N; torch_prod feat; V]) eqn:Heq.
  - apply shape_eqb_eq in Heq. cbn [assert_ bind].
    rewrite (einsum_ndv_vnd mat Heq). cbn [bind].
    rewrite reshape_ok by (simpl; lia).
    split; [|split].
    + split; [|eexists; reflexivity].
      intros _. exists N, V, feat. split; [reflexivity | exact Heq].
    + split; [discriminate|]. intros [Hc|Hc]; [discriminate | contradiction].
    + discriminate.
  - cbn [assert_ bind]. split; [|split].
    + split; [intros (x & Hx); discriminate|].
      intros (N' & V' & feat' & Hc & Hs). injection Hc as <- <-.
      rewrite Hs in Hrev. cbn in Hrev. injection Hrev as <- _.
      rewrite Hs, shape_eqb_refl in Heq. discriminate.
    + split; [discriminate|]. intros [Hc|Hc]; [discriminate | contradiction].
    + intros e He. injection He as <-. now right.
Qed.

(** X6.  [remove_V_dim] undoes [add_V_dim], and it leaves a tensor
    unchanged when its last extent is not 1 or when it has no axis. *)
Theorem remove_V_dim_add_V_dim (t : tensor R) :
  remove_V_dim (add_V_dim t) = t
  /\ (forall d front, rev (shape t) = d :: front -> d <> 1 ->
      remove_V_dim t = t)
  /\ (shape t = [] -> remove_V_dim t = t).
Proof.
  split; [|split].
  - unfold remove_V_dim, add_V_dim, squeeze_last, unsqueeze_last.
    cbn [shape data]. rewrite rev_app_distr. cbn [rev app].
    rewrite rev_involutive. now destruct t.
  - intros d front Hrev Hd. unfold remove_V_dim, squeeze_last. rewrite Hrev.
    destruct d as [|[|d]]; [reflexivity | congruence | reflexivity].
  - intros Hs. unfold remove_V_dim, squeeze_last. now rewrite Hs.
Qed.

End ConverterEntries.

Section WrapperExtras.

Context {R : Type} `{Scalar R}.

Lemma new_output_then_old_input (mat : tensor R) (module : torch_module R)
    (N V : nat) (feat : list nat) :
  output_shape module = N :: feat ->
  input0_shape module = N :: feat ->
  shape mat = [N; torch_prod feat; V] ->
  wf mat ->
  exists m : tensor R,
    new_output_convention mat module = Ok m
    /\ old_input_convention m module = Ok mat.
Proof.
  intros Hout Hin Hs Hwf.
  unfold new_output_convention. rewrite Hout, Hs.
  cbn [getitem nth_error getitem_last rev app tl bind].
  rewrite shape_eqb_refl. cbn [assert_ bind].
  rewrite (einsum_ndv_vnd mat Hs). cbn [bind].
  rewrite reshape_ok by (simpl; lia).
  eexists. split; [reflexivity|].
  unfold old_input_convention. rewrite Hin.
  cbn [getitem nth_error tl bind shape app].
  rewrite shape_eqb_refl. cbn [assert_ bind].
  rewrite reshape_ok by (simpl; lia). cbn [bind].
  rewrite (einsum_vnc_ncv _ (v := V) (n := N) (c := torch_prod feat))
    by reflexivity.
  f_equal. destruct mat as [s l]. cbn [shape data] in *. subst s. f_equal.
  unfold entry at 2. cbn [shape data].
  apply ndv_vnd_vnc_ncv. exact Hwf.
Qed.

Lemma new_input_then_old_output (mat : tensor R) (module : torch_module R)
    (N V : nat) (feat : list nat) :
  output_shape module = N :: feat ->
  input0_shape module = N :: feat ->
  shape mat = [N; torch_prod feat; V] ->
  wf mat ->
  exists m : tensor R,
    new_input_convention mat module = Ok m
    /\ old_output_convention m module = Ok mat.
Proof.
  intros Hout Hin Hs Hwf.
  unfold new_input_convention. rewrite Hin, Hs.
  cbn [getitem nth_error getitem_last rev app tl bind].
  rewrite shape_eqb_refl. cbn [assert_ bind].
  rewrite (einsum_ndv_vnd mat Hs). cbn [bind].
  rewrite reshape_ok by (simpl; lia).
  eexists. split; [reflexivity|].
  unfold old_output_convention. rewrite Hout.
  cbn [getitem nth_error tl bind shape app].
  rewrite shape_eqb_refl. cbn [assert_ bind].
  rewrite reshape_ok by (simpl; lia). cbn [bind].
  rewrite (einsum_vnc_ncv _ (v := V) (n := N) (c := torch_prod feat))
    by reflexivity.
  f_equal. destruct mat as [s l]. cbn [shape data] in *. subst s. f_equal.
  unfold entry at 2. cbn [shape data].
  apply ndv_vnd_vnc_ncv. exact Hwf.
Qed.

Lemma demote_promote (mat : tensor R) : demote mat (promote mat) = mat.
Proof.
  unfold demote, promote. destruct (length (shape mat) =? 2); [|reflexivity].
  unfold remove_V_dim, add_V_dim, squeeze_last, unsqueeze_last.
  cbn [shape data]. rewrite rev_app_distr. cbn [rev app].
  rewrite rev_involutive. now destruct mat.
Qed.

Lemma promote_wf (mat : tensor R) (N D V : nat) :
  old_layout mat N D V -> wf mat -> wf (promote mat).
Proof.
  unfold promote, wf. intros [[Hs ->]|Hs] Hwf; rewrite Hs in *;
    cbn [length Nat.eqb].
  - unfold add_V_dim, unsqueeze_last. cbn [shape data].
    rewrite Hwf, Hs. simpl. lia.
  - rewrite Hs. exact Hwf.
Qed.

(** X7.  The wrappers add nothing of their own: on a layer whose input
    and output shapes coincide, the transposed-Jacobian and the
    forward-Jacobian wrapper around the handler that returns its input
    return a rank-2 or rank-3 old-layout input unchanged. *)
Theorem wrapped_identity_handler_is_transparent (Self Grad : Type)
    (self : Self) (module : torch_module R) (g_inp g_out : Grad)
    (mat : tensor R) (kw : kwargs) (N V : nat) (feat : list nat) :
  output_shape module = N :: feat ->
  input0_shape module = N :: feat ->
  old_layout mat N (torch_prod feat) V ->
  wf mat ->
  jac_t_new_shape_convention (fun _ _ _ _ m _ => Ok m)
    self module g_inp g_out mat kw = Ok mat
  /\ jac_new_shape_convention (fun _ _ _ _ m _ => Ok m)
       self module g_inp g_out mat kw = Ok mat.
Proof.
  intros Hout Hin Hl Hwf.
  pose proof (promote_shape Hl) as Hs.
  pose proof (promote_wf Hl Hwf) as Hwfp.
  split.
  - rewrite jac_t_pipeline.
    edestruct new_output_then_old_input as (m & Hm & Ho);
      [exact Hout | exact Hin | exact Hs | exact Hwfp |].
    rewrite Hm. cbn [bind]. rewrite Ho. cbn [bind].
    now rewrite demote_promote.
  - rewrite jac_pipeline.
    edestruct new_input_then_old_output as (m & Hm & Ho);
      [exact Hout | exact Hin | exact Hs | exact Hwfp |].
    rewrite Hm. cbn [bind]. rewrite Ho. cbn [bind].
    now rewrite demote_promote.
Qed.

End WrapperExtras.

(** Two contiguous lists of the same shape with the same entries are the
    same list. *)
Lemma data_ext {A : Type} (l1 l2 : list A) (dims : list nat) (d : A) :
  length l1 = torch_prod dims ->
  length l2 = torch_prod dims ->
  (forall idx, Forall2 lt idx dims ->
               nth (ravel dims idx) l1 d = nth (ravel dims idx) l2 d) ->
  l1 = l2.
Proof.
  intros H1 H2 Hext.
  rewrite <- (map_nth_ravel_tuples l1 dims d H1).
  rewrite <- (map_nth_ravel_tuples l2 dims d H2).
  apply map_ext_in. intros idx Hidx. apply Hext. now apply in_tuples.
Qed.

Section KroneckerExtras.

Context {R : Type} `{ScalarLaws R}.

(** X8.  The Kronecker product of three matrices does not depend on the
    nesting: [matrix_from_kron_facs([A, B, C])], which the loop computes
    as [(A (x) B) (x) C], is the tensor [A (x) (B (x) C)] (entries in a
    commutative semiring). *)
Theorem matrix_from_kron_facs_associative (A B C : tensor R)
    (r1 c1 r2 c2 r3 c3 : nat) :
  shape A = [r1; c1] -> shape B = [r2; c2] -> shape C = [r3; c3] ->
  exists M : tensor R,
    matrix_from_kron_facs [A; B; C] = Ok (Some M)
    /\ (BC <- matrix_from_two_kron_facs B C ;;
        matrix_from_two_kron_facs A BC) = Ok M.
Proof.
  intros HA HB HC.
  unfold matrix_from_kron_facs. cbn [matrix_from_kron_facs_loop].
  unfold is_matrix, is_tensor_of_order. rewrite HA. cbn [length Nat.eqb assert_ bind].
  pose proof (matrix_from_two_kron_facs_eq A B HA HB) as HAB.
  pose proof (matrix_from_two_kron_facs_eq B C HB HC) as HBC.
  rewrite HAB, HBC. cbn [bind].
  match type of HAB with _ = Ok ?t => set (AB := t) in * end.
  match type of HBC with _ = Ok ?t => set (BC := t) in * end.
  pose proof (matrix_from_two_kron_facs_eq AB C (r1 := r1 * r2) (c1 := c1 * c2)
                eq_refl HC) as HL.
  pose proof (matrix_from_two_kron_facs_eq A BC (r2 := r2 * r3) (c2 := c2 * c3)
                HA eq_refl) as HR.
  rewrite HL, HR. eexists. split; [reflexivity|]. f_equal.
  f_equal.
  - f_equal; [|f_equal]; ring.
  - apply data_ext with (dims := [r1; r2; r3; c1; c2; c3]) (d := rzero).
    + rewrite length_map, tuples_length. simpl. ring.
    + rewrite length_map, tuples_length. simpl. ring.
    + intros idx Hidx. invert_idx Hidx.
      rename i into i1, i0 into i2, i1 into i3, i2 into j1, i3 into j2, i4 into j3.
      assert (Hr12 : i1 * r2 + i2 < r1 * r2) by nia.
      assert (Hc12 : j1 * c2 + j2 < c1 * c2) by nia.
      assert (Hr23 : i2 * r3 + i3 < r2 * r3) by nia.
      assert (Hc23 : j2 * c3 + j3 < c2 * c3) by nia.
      replace (ravel [r1; r2; r3; c1; c2; c3] [i1; i2; i3; j1; j2; j3])
        with (ravel [r1; r2 * r3; c1; c2 * c3]
                    [i1; i2 * r3 + i3; j1; j2 * c3 + j3]) at 1
        by (simpl; ring).
      rewrite nth_map_tuples by (repeat constructor; assumption).
      replace (ravel [r1; r2; r3; c1; c2; c3] [i1; i2; i3; j1; j2; j3])
        with (ravel [r1 * r2; r3; c1 * c2; c3]
                    [i1 * r2 + i2; i3; j1 * c2 + j2; j3])
        by (simpl; ring).
      rewrite nth_map_tuples by (repeat constructor; assumption).
      cbn [nth].
      rewrite (kron_pair_entry A B HA HB HAB) by assumption.
      rewrite (kron_pair_entry B C HB HC HBC) by assumption.
      apply (SRmul_assoc scalar_srt).
Qed.

End KroneckerExtras.


Lemma draw_exhausted (k : nat) :
  forall g : letters,
    gen_i g <= gen_max g -> gen_max g < gen_i g + k ->
    draw k g = Raise StopIteration.
Proof.
  induction k as [|k IH]; intros g Hle Hlt.
  - lia.
  - cbn [draw]. unfold next.
    destruct (Nat.ltb_spec (gen_i g) (gen_max g)) as [H1|H1]; [|reflexivity].
    cbn [bind snd]. rewrite IH; [reflexivity| |]; cbn [gen_i gen_max]; lia.
Qed.

Lemma distinct_NoDup (l : list ascii) : distinct l = true -> NoDup l.
Proof.
  induction l as [|c l IH]; intros Hd.
  - constructor.
  - cbn [distinct] in Hd. apply andb_prop in Hd as [Hc Hl].
    constructor; [|now apply IH].
    intros Hin. apply negb_true_iff in Hc.
    assert (E : mem_ascii c l = true).
    { unfold mem_ascii. apply existsb_exists. exists c.
      split; [exact Hin | apply Ascii.eqb_refl]. }
    congruence.
Qed.

(** X13.  [get_letters()] yields the 26 letters [a] to [z], in order and
    pairwise distinct: drawing [k <= 26] letters gives the first [k]
    letters of the alphabet, drawing more raises [StopIteration]. *)
Theorem get_letters_yields_the_alphabet (k : nat) :
  (k <= 26 ->
   draw k get_letters
   = Ok (firstn k (list_ascii_of_string "abcdefghijklmnopqrstuvwxyz"),
         {| gen_i := k; gen_max := 26 |}))
  /\ (26 < k -> draw k get_letters = Raise StopIteration)
  /\ NoDup (list_ascii_of_string "abcdefghijklmnopqrstuvwxyz").
Proof.
  split; [|split].
  - intros Hk.
    do 27 (destruct k as [|k]; [vm_compute; reflexivity|]). lia.
  - intros Hk. apply draw_exhausted;
      cbn [get_letters get_letters_from gen_i gen_max]; lia.
  - apply distinct_NoDup. vm_compute. reflexivity.
Qed.

(** X14.  For 1 to 13 factors [vp_einsum_equation] builds an equation of
    [5 n + 2] characters that einsum reads as: the vector carries the [n]
    column labels, factor [k] carries its own row label and its own
    column label, the row labels are the output and the column labels
    are summed. *)
Theorem vp_einsum_equation_contracts_columns (n : nat) :
  1 <= n <= 13 ->
  exists equation : string,
    vp_einsum_equation n = Ok equation
    /\ String.length equation = 5 * n + 2
    /\ einsum_plan equation = Some (vp_plan n).
Proof.
  intros [H1 H13].
  destruct n as [|n]; [lia|].
  do 13 (destruct n as [|n];
         [eexists; split; [vm_compute; reflexivity|];
          split; vm_compute; reflexivity|]).
  lia.
Qed.


Section FactoredExtras.

Context {R : Type} `{Scalar R}.

(** X9.  [matrix_from_two_kron_facs] returns a matrix exactly when both
    arguments are rank-2 tensors, and otherwise fails with the
    [AssertionError] of its checks. *)
Theorem matrix_from_two_kron_facs_outcome (A B : tensor R) :
  ((exists M, matrix_from_two_kron_facs A B = Ok M)
   <-> is_matrix A = true /\ is_matrix B = true)
  /\ (is_matrix A && is_matrix B = false ->
      matrix_from_two_kron_facs A B = Raise (AssertionError None)).
Proof.
  destruct (is_matrix A) eqn:HA; destruct (is_matrix B) eqn:HB.
  - rewrite (matrix_from_two_kron_facs_eq A B
               (is_matrix_shape A HA) (is_matrix_shape B HB)).
    split; [|discriminate]. split; [auto | eexists; reflexivity].
  - assert (E : matrix_from_two_kron_facs A B = Raise (AssertionError None)).
    { unfold matrix_from_two_kron_facs. now rewrite HA, HB. }
    rewrite E. split; [|reflexivity].
    split; [intros (M & HM); discriminate | intros [_ Hc]; discriminate].
  - assert (E : matrix_from_two_kron_facs A B = Raise (AssertionError None)).
    { unfold matrix_from_two_kron_facs. now rewrite HA. }
    rewrite E. split; [|reflexivity].
    split; [intros (M & HM); discriminate | intros [Hc _]; discriminate].
  - assert (E : matrix_from_two_kron_facs A B = Raise (AssertionError None)).
    { unfold matrix_from_two_kron_facs. now rewrite HA. }
    rewrite E. split; [|reflexivity].
    split; [intros (M & HM); discriminate | intros [Hc _]; discriminate].
Qed.

(** X10.  The outcome of [vp_from_kron_facs] in all cases: it returns a
    product function exactly for 1 to 13 rank-2 factors; it raises
    [AssertionError] exactly when some factor is not rank-2, [ValueError]
    (the failed unpacking of the empty [zip]) exactly on the empty list,
    and [StopIteration] exactly for 14 or more rank-2 factors. *)
Theorem vp_from_kron_facs_outcome (factors : list (tensor R)) :
  ((exists vp, vp_from_kron_facs factors = Ok vp)
   <-> all_tensors_of_order 2 factors = true /\ 1 <= length factors <= 13)
  /\ (vp_from_kron_facs factors = Raise (AssertionError None)
      <-> all_tensors_of_order 2 factors = false)
  /\ (vp_from_kron_facs factors = Raise ValueError <-> factors = [])
  /\ (vp_from_kron_facs factors = Raise StopIteration
      <-> all_tensors_of_order 2 factors = true /\ 14 <= length factors).
Proof.
  destruct (all_tensors_of_order 2 factors) eqn:Hall.
  - destruct factors as [|f fs].
    + assert (E : vp_from_kron_facs (@nil (tensor R)) = Raise ValueError)
        by reflexivity.
      rewrite E. cbn [length].
      split; [|split; [|split]]; (split; intros Hx); outcome.
    + destruct (le_lt_dec (length (f :: fs)) 13) as [Hle|Hgt].
      * destruct (vp_from_kron_facs_supported (f :: fs) Hall) as (vp & Hvp).
        { cbn [length] in *. lia. }
        rewrite Hvp.
        split; [|split; [|split]]; (split; intros Hx); outcome.
      * rewrite (vp_from_kron_facs_too_many (f :: fs) Hall) by lia.
        split; [|split; [|split]]; (split; intros Hx); outcome.
  - rewrite (vp_from_kron_facs_not_matrix factors Hall).
    split; [|split; [|split]]; (split; intros Hx); try outcome.
    subst factors. discriminate Hall.
Qed.




End FactoredExtras.


Section HBPExtras.

Context {R : Type} `{Scalar R}.

Lemma einsum_bijc_bic_eq (t : tensor R) (b i j c : nat) :
  shape t = [b; i; j; c] ->
  einsum "bijc->bic" [t] =
  Ok {| shape := [b; i; c];
        data := map (fun o =>
                       rsum (map (fun s =>
                                    entry t [nth 0 o 0; nth 1 o 0;
                                             nth 0 s 0; nth 2 o 0])
                                 (tuples [j])))
                    (tuples [b; i; c]) |}.
Proof.
  intros Hs. run_einsum. do 2 f_equal.
  unfold einsum_eval. apply map_ext_in. intros o Ho. f_equal.
  apply map_ext_in. intros s Hs'.
  apply in_tuples in Ho, Hs'. invert_idx Ho. invert_idx Hs'. reflexivity.
Qed.

Lemma einsum_bic_blc_il_eq (t : tensor R) (b i c : nat) :
  shape t = [b; i; c] ->
  einsum "bic,blc->il" [t; t] =
  Ok {| shape := [i; i];
        data := map (fun o =>
                       rsum (map (fun s =>
                                    rmul (entry t [nth 0 s 0; nth 0 o 0; nth 1 s 0])
                                         (entry t [nth 0 s 0; nth 1 o 0; nth 1 s 0]))
                                 (tuples [b; c])))
                    (tuples [i; i]) |}.
Proof.
  intros Hs. run_einsum. do 2 f_equal.
  unfold einsum_eval. apply map_ext_in. intros o Ho. f_equal.
  apply map_ext_in. intros s Hs'.
  apply in_tuples in Ho, Hs'. invert_idx Ho. invert_idx Hs'. reflexivity.
Qed.

Variable unfold_func : torch_module R -> tensor R -> result (tensor R).
Variable separate_channels_and_pixels :
  torch_module R -> tensor R -> result (tensor R).

(** The square-root factor: the backpropagated quantity is summed over
    the pixels, and the products of two channels are summed over the
    batch and the columns. *)
Lemma _factor_from_sqrt_eq (self : hbp_self R) (module : torch_module R)
    (S : tensor R) (b i j c : nat) :
  separate_channels_and_pixels module (mat_from_ctx self) = Ok S ->
  shape S = [b; i; j; c] ->
  exists F : tensor R,
    _factor_from_sqrt separate_channels_and_pixels self module = Ok F
    /\ shape F = [i; i]
    /\ wf F
    /\ forall p q : nat,
        p < i -> q < i ->
        entry F [p; q]
        = rsum (map (fun s =>
                       rmul (rsum (map (fun x =>
                                          entry S [nth 0 s 0; p; nth 0 x 0;
                                                   nth 1 s 0])
                                       (tuples [j])))
                            (rsum (map (fun x =>
                                          entry S [nth 0 s 0; q; nth 0 x 0;
                                                   nth 1 s 0])
                                       (tuples [j]))))
                    (tuples [b; c])).
Proof.
  intros HS Hs. unfold _factor_from_sqrt. rewrite HS. cbn [bind].
  rewrite (einsum_bijc_bic_eq S Hs). cbn [bind].
  rewrite (einsum_bic_blc_il_eq _ (b := b) (i := i) (c := c)) by reflexivity.
  eexists. split; [reflexivity|]. split; [reflexivity|]. split.
  { unfold wf. cbn [shape data]. now rewrite length_map, tuples_length. }
  intros p q Hp Hq. unfold entry at 1. cbn [shape data].
  rewrite (nth_map_tuples _ (dims := [i; i]) (idx := [p; q]))
    by (repeat constructor; assumption).
  cbn [nth]. f_equal. apply map_ext_in. intros s Hs'.
  apply in_tuples in Hs'. invert_idx Hs'. cbn [nth].
  unfold entry at 1 3. cbn [shape data].
  rewrite (nth_map_tuples _ (dims := [b; i; c]) (idx := [i0; p; i1]))
    by (repeat constructor; assumption).
  rewrite (nth_map_tuples _ (dims := [b; i; c]) (idx := [i0; q; i1]))
    by (repeat constructor; assumption).
  reflexivity.
Qed.

(** X15.  The factor from the square root: with the backpropagated
    quantity separated into [[b, i, j, c]] (batch, channels, pixels,
    columns), [_factor_from_sqrt] returns an [i x i] matrix whose entry
    [(p, q)] is the sum over batch and columns of the products of the
    pixel sums of channels [p] and [q]. *)
Theorem HBPConv2d_factor_from_sqrt_entries (self : hbp_self R)
    (module : torch_module R) (S : tensor R) (b i j c : nat) :
  separate_channels_and_pixels module (mat_from_ctx self) = Ok S ->
  shape S = [b; i; j; c] ->
  exists F : tensor R,
    _factor_from_sqrt separate_channels_and_pixels self module = Ok F
    /\ shape F = [i; i]
    /\ wf F
    /\ forall p q : nat,
        p < i -> q < i ->
        entry F [p; q]
        = rsum (map (fun s =>
                       rmul (rsum (map (fun x =>
                                          entry S [nth 0 s 0; p; nth 0 x 0;
                                                   nth 1 s 0])
                                       (tuples [j])))
                            (rsum (map (fun x =>
                                          entry S [nth 0 s 0; q; nth 0 x 0;
                                                   nth 1 s 0])
                                       (tuples [j]))))
                    (tuples [b; c])).
Proof.
  intros HS Hs. eapply _factor_from_sqrt_eq; eassumption.
Qed.

(** X17.  Under [is_sqrt], when the backpropagated quantity cannot be
    separated into channels and pixels, [weight] and [bias] fail with the
    error of the helper, whatever the expectation approximation and the
    unfolding: the square-root factor is computed before the input
    factors are asked for. *)
Theorem HBPConv2d_helper_error (self : hbp_self R) (module : torch_module R)
    (e : exn) :
  bp_strategy self = SQRT ->
  separate_channels_and_pixels module (mat_from_ctx self) = Raise e ->
  HBPConv2d_weight unfold_func separate_channels_and_pixels self module
  = Raise e
  /\ HBPConv2d_bias separate_channels_and_pixels self module = Raise e.
Proof.
  intros Hbp He.
  assert (HF : _factor_from_sqrt separate_channels_and_pixels self module
               = Raise e).
  { unfold _factor_from_sqrt. now rewrite He. }
  split.
  - rewrite HBPConv2d_weight_sqrt, HF by assumption. reflexivity.
  - rewrite HBPConv2d_bias_sqrt, HF by assumption. reflexivity.
Qed.

Variable homogeneous_unfolded_input : torch_module R -> result (tensor R).

Lemma HBPConv2dConcat_weight_eq (self : hbp_self R) (module : torch_module R) :
  HBPConv2dConcat_weight homogeneous_unfolded_input
    separate_channels_and_pixels self module
  = HBPConv2d_weight (fun m _ => homogeneous_unfolded_input m)
      separate_channels_and_pixels self module.
Proof. reflexivity. Qed.

(** X18.  [HBPConv2dConcat.weight] behaves as [HBPConv2d.weight] with the
    unfolded input taken from [module.homogeneous_unfolded_input()]: it
    raises [NotImplementedError] under [is_batch_average] and, under
    [is_sqrt], under [should_average_param_jac]; otherwise it returns the
    square-root factor followed by [X^T X / batch]. *)
Theorem HBPConv2dConcat_weight_spec (self : hbp_self R)
    (module : torch_module R) :
  (bp_strategy self = BATCH_AVERAGE ->
   HBPConv2dConcat_weight homogeneous_unfolded_input
     separate_channels_and_pixels self module = Raise NotImplementedError)
  /\ (bp_strategy self = SQRT ->
      forall (S X : tensor R) (b i j c B I K : nat),
        separate_channels_and_pixels module (mat_from_ctx self) = Ok S ->
        shape S = [b; i; j; c] ->
        homogeneous_unfolded_input module = Ok X ->
        shape X = [B; I; K] ->
        (ea_strategy self = AVERAGE_PARAM_JAC ->
         HBPConv2dConcat_weight homogeneous_unfolded_input
           separate_channels_and_pixels self module
         = Raise NotImplementedError)
        /\ (ea_strategy self = NO_AVERAGE ->
            exists F G : tensor R,
              HBPConv2dConcat_weight homogeneous_unfolded_input
                separate_channels_and_pixels self module = Ok (Some [F; G])
              /\ shape F = [i; i]
              /\ shape G = [I; I]
              /\ forall p q : nat,
                  p < I -> q < I ->
                  entry G [p; q]
                  = rdiv_int
                      (rsum (map (fun s =>
                                    rmul (entry X [nth 0 s 0; p; nth 1 s 0])
                                         (entry X [nth 0 s 0; q; nth 1 s 0]))
                                 (tuples [B; K])))
                      B)).
Proof.
  split.
  - intros Hbp. unfold HBPConv2dConcat_weight. now rewrite Hbp.
  - intros Hbp S X b i j c B I K HS Hs HX Hx.
    rewrite HBPConv2dConcat_weight_eq, HBPConv2d_weight_sqrt by assumption.
    edestruct _factor_from_sqrt_shape as (F & HF & HsF); [exact HS | exact Hs |].
    rewrite HF. cbn [bind]. split.
    + intros Hea. unfold _factors_from_input. rewrite HX. cbn [bind].
      rewrite Hx. cbn [getitem nth_error bind]. now rewrite Hea.
    + intros Hea.
      edestruct (_factors_from_input_no_average
                   (fun m (_ : tensor R) => homogeneous_unfolded_input m))
        as (G & HG & HsG & HeG); [exact Hea | exact HX | exact Hx |].
      rewrite HG. exists F, G. repeat split; assumption.
Qed.

End HBPExtras.

Section HBPSymmetry.

Context {R : Type} `{ScalarLaws R}.

Variable unfold_func : torch_module R -> tensor R -> result (tensor R).
Variable separate_channels_and_pixels :
  torch_module R -> tensor R -> result (tensor R).

(** X16.  Both Kronecker factors of the convolution handler are symmetric
    matrices (entries in a commutative semiring). *)
Theorem HBPConv2d_factors_symmetric (self : hbp_self R)
    (module : torch_module R) (S X : tensor R) (b i j c B I K : nat) :
  ea_strategy self = NO_AVERAGE ->
  separate_channels_and_pixels module (mat_from_ctx self) = Ok S ->
  shape S = [b; i; j; c] ->
  unfold_func module (input0 module) = Ok X ->
  shape X = [B; I; K] ->
  exists F G : tensor R,
    _factor_from_sqrt separate_channels_and_pixels self module = Ok F
    /\ _factors_from_input unfold_func self module = Ok [G]
    /\ (forall p q : nat, p < i -> q < i -> entry F [p; q] = entry F [q; p])
    /\ (forall p q : nat, p < I -> q < I -> entry G [p; q] = entry G [q; p]).
Proof.
  intros Hea HS Hs HX Hx.
  edestruct _factor_from_sqrt_eq as (F & HF & HsF & _ & HeF);
    [exact HS | exact Hs |].
  edestruct _factors_from_input_no_average as (G & HG & HsG & HeG);
    [exact Hea | exact HX | exact Hx |].
  exists F, G. split; [exact HF|]. split; [exact HG|]. split.
  - intros p q Hp Hq. rewrite (HeF p q Hp Hq), (HeF q p Hq Hp).
    f_equal. apply map_ext. intros s. apply (SRmul_comm scalar_srt).
  - intros p q Hp Hq. rewrite (HeG p q Hp Hq), (HeG q p Hq Hp).
    do 2 f_equal. apply map_ext. intros s. apply (SRmul_comm scalar_srt).
Qed.

End HBPSymmetry.

(** X19.  The dictionaries of [DiagHessian] and [BatchDiagHessian] have no
    repeated key and the same keys in the same order: every layer class
    the file imports has a handler in both extensions, and the two
    handlers are the same except for the layers with parameters ([Linear],
    [Conv1d/2d/3d], [ConvTranspose1d/2d/3d]); the two extensions save
    their results under different names. *)
Theorem diag_hessian_module_exts_agree :
  NoDup (map fst (diag_hessian.module_exts diag_hessian.DiagHessian))
  /\ map fst (diag_hessian.module_exts diag_hessian.DiagHessian)
     = map fst (diag_hessian.module_exts diag_hessian.BatchDiagHessian)
  /\ (forall l : diag_hessian.layer,
        exists h hb : diag_hessian.module_extension,
          diag_hessian.dict_get
            (diag_hessian.module_exts diag_hessian.DiagHessian) l = Some h
          /\ diag_hessian.dict_get
               (diag_hessian.module_exts diag_hessian.BatchDiagHessian) l
             = Some hb
          /\ (h = hb <-> diag_hessian.has_parameters l = false))
  /\ diag_hessian.savefield diag_hessian.DiagHessian
     <> diag_hessian.savefield diag_hessian.BatchDiagHessian.
Proof.
  split; [|split; [|split]].
  - cbn [map fst diag_hessian.module_exts diag_hessian.DiagHessian].
    repeat (constructor; [cbn [In]; intuition discriminate|]). constructor.
  - reflexivity.
  - intros l. destruct l; eexists; eexists;
      (split; [reflexivity|]); (split; [reflexivity|]);
      cbn; split; (discriminate || reflexivity || intros; discriminate).
  - discriminate.
Qed.

(* ================================================================== *)
(** * The further properties at concrete inputs *)
(* ================================================================== *)

Lemma input_convention_round_trip_witness :
  input0_shape ex_module_in = 2 :: [3; 1]
  /\ shape ex_mat = [2; torch_prod [3; 1]; 2]
  /\ wf ex_mat
  /\ (new_mat <- new_input_convention ex_mat ex_module_in ;;
      old_input_convention new_mat ex_module_in) = Ok ex_mat.
Proof.
  split; [reflexivity|]. split; [reflexivity|]. split; [reflexivity|].
  apply (@input_convention_round_trip Z _ ex_mat ex_module_in 2 2 [3; 1]);
    reflexivity.
Defined.

Lemma convention_round_trip_from_new_witness :
  shape ex_new = 2 :: 2 :: [3; 1]
  /\ wf ex_new
  /\ output_shape ex_module_in = 2 :: [3; 1]
  /\ input0_shape ex_module_in = 2 :: [3; 1]
  /\ (old_mat <- old_output_convention ex_new ex_module_in ;;
      new_output_convention old_mat ex_module_in) = Ok ex_new
  /\ (old_mat <- old_input_convention ex_new ex_module_in ;;
      new_input_convention old_mat ex_module_in) = Ok ex_new.
Proof.
  split; [reflexivity|]. split; [reflexivity|].
  split; [reflexivity|]. split; [reflexivity|].
  destruct (@convention_round_trip_from_new Z _ ex_new ex_module_in 2 2 [3; 1]
              eq_refl eq_refl) as [Ho Hi].
  split; [exact (Ho eq_refl) | exact (Hi eq_refl)].
Defined.

Lemma new_output_convention_entries_witness :
  output_shape ex_module = 2 :: [3; 1]
  /\ shape ex_mat = [2; torch_prod [3; 1]; 2]
  /\ exists new_mat : tensor Z,
      new_output_convention ex_mat ex_module = Ok new_mat
      /\ entry new_mat [1; 0; 2; 0] = entry ex_mat [0; ravel [3; 1] [2; 0]; 1].
Proof.
  split; [reflexivity|]. split; [reflexivity|].
  destruct (@new_output_convention_entries Z _ ex_mat ex_module 2 2 [3; 1]
              eq_refl eq_refl) as (new_mat & Hn & _ & _ & He).
  exists new_mat. split; [exact Hn|].
  apply (He 1 0 [2; 0]); repeat constructor.
Defined.

Lemma old_weight_convention_entries_witness :
  shape (weight ex_module) <> []
  /\ shape ex_mat = 2 :: shape (weight ex_module)
  /\ exists old_mat : tensor Z,
      old_weight_convention ex_mat ex_module true = Ok old_mat
      /\ entry old_mat [ravel (shape (weight ex_module)) [2; 1]; 1]
         = entry ex_mat [1; 2; 1].
Proof.
  assert (Hne : shape (weight ex_module) <> []) by discriminate.
  split; [exact Hne|]. split; [reflexivity|].
  destruct (proj1 (@old_weight_convention_entries Z _ ex_mat ex_module 2 0)
              Hne eq_refl) as (old_mat & Ho & He).
  exists old_mat. split; [exact Ho|].
  apply (He 1 [2; 1]); repeat constructor.
Defined.

Lemma new_output_convention_outcome_witness :
  (exists new_mat, new_output_convention ex_mat ex_module = Ok new_mat)
  /\ forall e : exn,
      new_output_convention ex_vector ex_module = Raise e ->
      e = IndexError \/ e = AssertionError None.
Proof.
  split.
  - apply (proj1 (@new_output_convention_outcome Z _ ex_mat ex_module)).
    exists 2, 2, [3; 1]. split; reflexivity.
  - exact (proj2 (proj2 (@new_output_convention_outcome Z _ ex_vector
                           ex_module))).
Defined.

Lemma remove_V_dim_add_V_dim_witness :
  remove_V_dim (add_V_dim ex_mat2) = ex_mat2
  /\ rev (shape ex_mat) = 2 :: [3; 2]
  /\ remove_V_dim ex_mat = ex_mat.
Proof.
  split; [exact (proj1 (@remove_V_dim_add_V_dim Z ex_mat2))|].
  split; [reflexivity|].
  apply (proj1 (proj2 (@remove_V_dim_add_V_dim Z ex_mat)) 2 [3; 2] eq_refl).
  discriminate.
Defined.

Lemma wrapped_identity_handler_is_transparent_witness :
  output_shape ex_module_same = 2 :: [3]
  /\ input0_shape ex_module_same = 2 :: [3]
  /\ old_layout ex_mat2 2 (torch_prod [3]) 1
  /\ wf ex_mat2
  /\ jac_t_new_shape_convention (fun _ _ _ _ m _ => Ok m)
       tt ex_module_same tt tt ex_mat2 ex_no_kwargs = Ok ex_mat2
  /\ jac_new_shape_convention (fun _ _ _ _ m _ => Ok m)
       tt ex_module_same tt tt ex_mat2 ex_no_kwargs = Ok ex_mat2.
Proof.
  assert (Hl : old_layout ex_mat2 2 (torch_prod [3]) 1)
    by (left; split; reflexivity).
  split; [reflexivity|]. split; [reflexivity|]. split; [exact Hl|].
  split; [reflexivity|].
  exact (@wrapped_identity_handler_is_transparent Z _ unit unit tt
           ex_module_same tt tt ex_mat2 ex_no_kwargs 2 1 [3]
           eq_refl eq_refl Hl eq_refl).
Defined.

Lemma matrix_from_kron_facs_associative_witness :
  shape ex_A = [2; 2] /\ shape ex_B = [2; 3] /\ shape ex_C = [1; 2]
  /\ exists M : tensor Z,
      matrix_from_kron_facs [ex_A; ex_B; ex_C] = Ok (Some M)
      /\ (BC <- matrix_from_two_kron_facs ex_B ex_C ;;
          matrix_from_two_kron_facs ex_A BC) = Ok M.
Proof.
  split; [reflexivity|]. split; [reflexivity|]. split; [reflexivity|].
  exact (@matrix_from_kron_facs_associative Z _ ScalarLaws_Z ex_A ex_B ex_C
           2 2 2 3 1 2 eq_refl eq_refl eq_refl).
Defined.

Lemma matrix_from_two_kron_facs_outcome_witness :
  is_matrix ex_A && is_matrix ex_vector = false
  /\ matrix_from_two_kron_facs ex_A ex_vector = Raise (AssertionError None)
  /\ exists M, matrix_from_two_kron_facs ex_A ex_B = Ok M.
Proof.
  split; [reflexivity|]. split.
  - exact (proj2 (@matrix_from_two_kron_facs_outcome Z _ ex_A ex_vector)
             eq_refl).
  - apply (proj1 (@matrix_from_two_kron_facs_outcome Z _ ex_A ex_B)).
    split; reflexivity.
Defined.

Lemma vp_from_kron_facs_outcome_witness :
  vp_from_kron_facs (@nil (tensor Z)) = Raise ValueError
  /\ all_tensors_of_order 2 [ex_A; ex_B] = true
  /\ 1 <= length [ex_A; ex_B] <= 13
  /\ exists vp, vp_from_kron_facs [ex_A; ex_B] = Ok vp.
Proof.
  split.
  - exact (proj2 (proj1 (proj2 (proj2 (@vp_from_kron_facs_outcome Z _ []))))
             eq_refl).
  - assert (Hn : 1 <= length [ex_A; ex_B] <= 13)
      by (split; repeat constructor).
    split; [reflexivity|]. split; [exact Hn|].
    apply (proj1 (@vp_from_kron_facs_outcome Z _ [ex_A; ex_B])).
    split; [reflexivity | exact Hn].
Defined.



Lemma get_letters_yields_the_alphabet_witness :
  3 <= 26
  /\ draw 3 get_letters
     = Ok (list_ascii_of_string "abc", {| gen_i := 3; gen_max := 26 |})
  /\ 26 < 27
  /\ draw 27 get_letters = Raise StopIteration.
Proof.
  assert (H3 : 3 <= 26) by (repeat constructor).
  assert (H27 : 26 < 27) by (repeat constructor).
  split; [exact H3|].
  split; [exact (proj1 (get_letters_yields_the_alphabet 3) H3)|].
  split; [exact H27|].
  exact (proj1 (proj2 (get_letters_yields_the_alphabet 27)) H27).
Defined.

Lemma vp_einsum_equation_contracts_columns_witness :
  1 <= 2 <= 13
  /\ exists equation : string,
      vp_einsum_equation 2 = Ok equation
      /\ String.length equation = 12
      /\ einsum_plan equation
         = Some {| n_out := 2; n_sum := 2;
                   ops_pos := [[2; 3]; [0; 2]; [1; 3]] |}.
Proof.
  assert (H : 1 <= 2 <= 13) by (split; repeat constructor).
  split; [exact H|].
  exact (vp_einsum_equation_contracts_columns H).
Defined.

Lemma HBPConv2d_factor_from_sqrt_entries_witness :
  separate_1x1 ex_conv (mat_from_ctx (ex_self SQRT NO_AVERAGE))
  = Ok (ex_tensor [1; 1; 1; 1] [3]%Z)
  /\ exists F : tensor Z,
      _factor_from_sqrt separate_1x1 (ex_self SQRT NO_AVERAGE) ex_conv = Ok F
      /\ shape F = [1; 1]
      /\ wf F.
Proof.
  split; [reflexivity|].
  destruct (@HBPConv2d_factor_from_sqrt_entries Z _ separate_1x1
              (ex_self SQRT NO_AVERAGE) ex_conv
              (ex_tensor [1; 1; 1; 1] [3]%Z) 1 1 1 1 eq_refl eq_refl)
    as (F & HF & Hs & Hwf & _).
  exists F. split; [exact HF|]. split; [exact Hs | exact Hwf].
Defined.

Lemma HBPConv2d_factors_symmetric_witness :
  ea_strategy (ex_self SQRT NO_AVERAGE) = NO_AVERAGE
  /\ (fun (_ : torch_module Z) (_ : tensor Z) => Ok ex_sqrt) ex_conv
       (mat_from_ctx (ex_self SQRT NO_AVERAGE)) = Ok ex_sqrt
  /\ shape ex_sqrt = [1; 2; 2; 1]
  /\ shape ex_unfolded = [1; 2; 2]
  /\ exists F G : tensor Z,
      _factor_from_sqrt (fun _ _ => Ok ex_sqrt)
        (ex_self SQRT NO_AVERAGE) ex_conv = Ok F
      /\ _factors_from_input (fun _ _ => Ok ex_unfolded)
           (ex_self SQRT NO_AVERAGE) ex_conv = Ok [G]
      /\ entry F [0; 1] = entry F [1; 0]
      /\ entry G [0; 1] = entry G [1; 0].
Proof.
  split; [reflexivity|]. split; [reflexivity|].
  split; [reflexivity|]. split; [reflexivity|].
  destruct (@HBPConv2d_factors_symmetric Z _ ScalarLaws_Z
              (fun _ _ => Ok ex_unfolded) (fun _ _ => Ok ex_sqrt)
              (ex_self SQRT NO_AVERAGE) ex_conv ex_sqrt ex_unfolded
              1 2 2 1 1 2 2 eq_refl eq_refl eq_refl eq_refl eq_refl)
    as (F & G & HF & HG & HsF & HsG).
  exists F, G. split; [exact HF|]. split; [exact HG|]. split.
  - apply HsF; repeat constructor.
  - apply HsG; repeat constructor.
Defined.

Lemma HBPConv2d_helper_error_witness :
  bp_strategy (ex_self SQRT AVERAGE_PARAM_JAC) = SQRT
  /\ separate_1x1 ex_module (mat_from_ctx (ex_self SQRT AVERAGE_PARAM_JAC))
     = Raise IndexError
  /\ HBPConv2d_weight unfold_1x1 separate_1x1
       (ex_self SQRT AVERAGE_PARAM_JAC) ex_module = Raise IndexError
  /\ HBPConv2d_bias separate_1x1 (ex_self SQRT AVERAGE_PARAM_JAC) ex_module
     = Raise IndexError.
Proof.
  split; [reflexivity|]. split; [reflexivity|].
  exact (@HBPConv2d_helper_error Z _ unfold_1x1 separate_1x1
           (ex_self SQRT AVERAGE_PARAM_JAC) ex_module IndexError
           eq_refl eq_refl).
Defined.

Lemma HBPConv2dConcat_weight_spec_witness :
  bp_strategy (ex_self BATCH_AVERAGE NO_AVERAGE) = BATCH_AVERAGE
  /\ HBPConv2dConcat_weight (fun _ => Ok ex_unfolded) separate_1x1
       (ex_self BATCH_AVERAGE NO_AVERAGE) ex_conv = Raise NotImplementedError
  /\ bp_strategy (ex_self SQRT NO_AVERAGE) = SQRT
  /\ ea_strategy (ex_self SQRT NO_AVERAGE) = NO_AVERAGE
  /\ exists F G : tensor Z,
      HBPConv2dConcat_weight (fun _ => Ok ex_unfolded) separate_1x1
        (ex_self SQRT NO_AVERAGE) ex_conv = Ok (Some [F; G])
      /\ shape F = [1; 1] /\ shape G = [2; 2].
Proof.
  split; [reflexivity|]. split.
  - exact (proj1 (@HBPConv2dConcat_weight_spec Z _ separate_1x1
                    (fun _ => Ok ex_unfolded)
                    (ex_self BATCH_AVERAGE NO_AVERAGE) ex_conv) eq_refl).
  - split; [reflexivity|]. split; [reflexivity|].
    destruct (proj2 (proj2 (@HBPConv2dConcat_weight_spec Z _ separate_1x1
                              (fun _ => Ok ex_unfolded)
                              (ex_self SQRT NO_AVERAGE) ex_conv) eq_refl
                       (ex_tensor [1; 1; 1; 1] [3]%Z) ex_unfolded
                       1 1 1 1 1 2 2 eq_refl eq_refl eq_refl eq_refl)
                eq_refl) as (F & G & Hw & HsF & HsG & _).
    exists F, G. split; [exact Hw|]. split; [exact HsF | exact HsG].
Defined.
